(** * ScrapC: the traversal controller and the shard merge of the Carrefour scraper

    A shallow embedding of [main_cli.py] and [main_cli_optimized.py].

    The browser page is the environment.  Every call the scraper makes on it
    is appended to a log, and the page answers each call as a function of the
    log so far, so a [Page] is an arbitrary deterministic content surface.
    The scraper is a program in a small state-and-exception monad over the
    log and the fields of [CarrefourScraperCLI].

    [time.time()] is read as an exact rational number of seconds.  The
    field extractors of a tile ([safe_extract], [extract_price], ...) are
    taken as one step that yields the dict or raises.  The progress bar and
    [save_results] write to the terminal and to a file only and are left
    out, as are the arguments that only configure the browser.

    After the traversal come the configuration with its command-line
    overrides, [process_url_task] and the modes of [main], where a task runs
    on the page that the web serves at its location; and the text extractors
    of a tile ([safe_extract], [extract_price], [extract_product_url],
    [extract_ean]), read over a snapshot of the tile, with [str.isspace],
    [str.isdigit] and [urljoin] as parameters. *)

From Stdlib Require Import ZArith QArith Lqa Lia List String Ascii Bool.
From stdpp Require Import base gmap sets list strings pretty.

Local Open Scope string_scope.
Local Open Scope list_scope.
Local Open Scope Z_scope.

(** ** Data *)

(** [product_data]: the dict built for one product tile.  Every field is a
    string or [None]. *)
Record product := mkProduct {
  name : option string;
  price : option string;
  unit_price : option string;
  ean : option string;
  nutriscore : option string;
  promo : option string;
  url : option string
}.

#[global] Instance product_eq_dec : EqDecision product.
Proof. solve_decision. Defined.

(** The answer of a call on the page: a value, or a raised [Exception]. *)
Inductive res (A : Type) : Type :=
| Ret (a : A)
| Raise.
Arguments Ret {A} a.
Arguments Raise {A}.

(** An element handle of the product grid, represented by what building
    [product_data] from it yields: the dict, or an exception. *)
Definition Element : Type := res product.

(** The calls the scraper makes on Playwright and on the clock. *)
Inductive Call : Type :=
| Launch                        (* p.chromium.launch(...) *)
| NewContext                    (* browser.new_context(...) *)
| NewPage                       (* context.new_page() *)
| Goto (location : string)      (* page.goto(url, ...) *)
| ClickCookie                   (* page.click('#onetrust-reject-all-handler') *)
| WaitForSelector               (* page.wait_for_selector('li.product-list-grid__item') *)
| Close                         (* browser.close() *)
| Count                         (* page.locator('li.product-list-grid__item').count() *)
| Now                           (* time.time() *)
| WaitTimeout (ms : Z)          (* page.wait_for_timeout(ms) *)
| QuerySelector (sel : string)  (* page.query_selector(sel) *)
| IsEnabled (sel : string)      (* btn.is_enabled() *)
| IsVisible (sel : string)      (* btn.is_visible() *)
| Click (sel : string)          (* btn.click() *)
| WaitLoadState                 (* page.wait_for_load_state("networkidle") *)
| ScrollBottom                  (* page.evaluate("window.scrollTo(...)") *)
| QuerySelectorAll.             (* page.query_selector_all('li.product-list-grid__item') *)

#[global] Instance Call_eq_dec : EqDecision Call.
Proof. solve_decision. Defined.

(** The log of calls, newest first. *)
Definition History : Type := list Call.

(** A content surface: the answer to each call, given the calls made before
    it.  [pg_clock] is the reading of [time.time()], in seconds. *)
Record Page := mkPage {
  pg_launch : History -> res unit;
  pg_new_context : History -> res unit;
  pg_new_page : History -> res unit;
  pg_goto : History -> string -> res unit;
  pg_click_cookie : History -> res unit;
  pg_wait_for_selector : History -> res unit;
  pg_close : History -> res unit;
  pg_count : History -> res nat;
  pg_clock : History -> Q;
  pg_wait_for_timeout : History -> Z -> res unit;
  pg_query_selector : History -> string -> res bool;
  pg_is_enabled : History -> string -> res bool;
  pg_is_visible : History -> string -> res bool;
  pg_click : History -> string -> res unit;
  pg_wait_for_load_state : History -> res unit;
  pg_scroll : History -> res unit;
  pg_query_selector_all : History -> res (list Element)
}.

(** The fields of [CarrefourScraperCLI] that a run mutates, with the log.
    [main_cli.py] has no [seen_urls]; there it stays empty. *)
Record State := mkState {
  log : History;
  products : list product;
  seen_urls : gset string
}.

Definition initial_state : State := mkState [] [] ∅.

(** ** The monad *)

(** [Exc]: an exception is propagating.  [OutOfFuel]: the iteration budget
    of the model of a [while] loop ran out (the model's only partiality). *)
Inductive outcome (A : Type) : Type :=
| Ok (a : A)
| Exc
| OutOfFuel.
Arguments Ok {A} a.
Arguments Exc {A}.
Arguments OutOfFuel {A}.

Definition M (A : Type) : Type := State -> State * outcome A.

Definition ret {A} (a : A) : M A := fun s => (s, Ok a).

Definition bind {A B} (m : M A) (f : A -> M B) : M B :=
  fun s =>
    match m s with
    | (s', Ok a) => f a s'
    | (s', Exc) => (s', Exc)
    | (s', OutOfFuel) => (s', OutOfFuel)
    end.

Notation "x <- m ;; k" := (bind m (fun x => k))
  (at level 100, m at next level, right associativity).
Notation "m ;;; k" := (bind m (fun _ => k))
  (at level 100, right associativity).

(** [try: m  except Exception: h].  Mutations made by [m] before it raised
    stay; running out of fuel is not an exception. *)
Definition try_except {A} (m : M A) (h : M A) : M A :=
  fun s =>
    match m s with
    | (s', Exc) => h s'
    | r => r
    end.

Definition out_of_fuel {A} : M A := fun s => (s, OutOfFuel).

Definition logged (c : Call) (s : State) : State :=
  mkState (c :: log s) (products s) (seen_urls s).

(** One call on the page: logged, then answered from the log before it. *)
Definition perform {A} (c : Call) (answer : History -> res A) : M A :=
  fun s =>
    match answer (log s) with
    | Ret a => (logged c s, Ok a)
    | Raise => (logged c s, Exc)
    end.

(** ** The selector catalogues of [extract_all_products] *)

Definition dq : string := String "034"%char EmptyString.

Definition load_more_selectors : list string :=
  [ "button[aria-label=" +:+ dq +:+ "Afficher les produits suivants" +:+ dq +:+ "]";
    "button:has-text(" +:+ dq +:+ "Afficher les produits suivants" +:+ dq +:+ ")";
    "button:has-text(" +:+ dq +:+ "Voir plus" +:+ dq +:+ ")";
    "button:has-text(" +:+ dq +:+ "Afficher plus" +:+ dq +:+ ")" ].

Definition next_selectors : list string :=
  [ "a[rel=" +:+ dq +:+ "next" +:+ dq +:+ "]";
    "a[aria-label=" +:+ dq +:+ "Page suivante" +:+ dq +:+ "]";
    "button[aria-label=" +:+ dq +:+ "Page suivante" +:+ dq +:+ "]";
    "a:has-text(" +:+ dq +:+ "Suivant" +:+ dq +:+ ")";
    "button:has-text(" +:+ dq +:+ "Suivant" +:+ dq +:+ ")" ].

Section Scraper.

Variable pg : Page.

Definition locator_count : M nat := perform Count (pg_count pg).
Definition time_time : M Q := perform Now (fun h => Ret (pg_clock pg h)).
Definition wait_for_timeout (ms : Z) : M unit :=
  perform (WaitTimeout ms) (fun h => pg_wait_for_timeout pg h ms).
Definition query_selector (sel : string) : M bool :=
  perform (QuerySelector sel) (fun h => pg_query_selector pg h sel).
Definition is_enabled (sel : string) : M bool :=
  perform (IsEnabled sel) (fun h => pg_is_enabled pg h sel).
Definition is_visible (sel : string) : M bool :=
  perform (IsVisible sel) (fun h => pg_is_visible pg h sel).
Definition click (sel : string) : M unit :=
  perform (Click sel) (fun h => pg_click pg h sel).
Definition wait_for_load_state : M unit :=
  perform WaitLoadState (pg_wait_for_load_state pg).
Definition scroll_to_bottom : M unit := perform ScrollBottom (pg_scroll pg).
Definition query_selector_all : M (list Element) :=
  perform QuerySelectorAll (pg_query_selector_all pg).

(** ** [products_count] and [wait_for_increase] *)

(** [products_count]: the count, or 0 when the locator raises. *)
Definition products_count : M nat := try_except locator_count (ret 0%nat).

(** The test of the [while] of [wait_for_increase]:
    [(time.time() - start) * 1000 < timeout_ms]. *)
Definition in_time (now start : Q) (timeout_ms : Z) : bool :=
  negb (Qle_bool (inject_Z timeout_ms) ((now - start) * 1000)).

(** The [while] loop of [wait_for_increase]; [fuel] bounds its iterations. *)
Fixpoint wait_loop (fuel : nat) (start : Q) (prev_count : nat)
    (timeout_ms poll_ms : Z) : M bool :=
  match fuel with
  | O => out_of_fuel
  | S fuel' =>
      now <- time_time ;;
      if in_time now start timeout_ms then
        new_count <- products_count ;;
        if (prev_count <? new_count)%nat then ret true
        else
          wait_for_timeout poll_ms ;;;
          wait_loop fuel' start prev_count timeout_ms poll_ms
      else ret false
  end.

Definition wait_for_increase (fuel : nat) (prev_count : nat)
    (timeout_ms poll_ms : Z) : M bool :=
  start <- time_time ;;
  wait_loop fuel start prev_count timeout_ms poll_ms.


(** ** [extract_page_products] *)

Definition modify (f : State -> State) : M unit := fun s => (f s, Ok tt).

(** [main_cli.py], the body of the [for]: the dict is appended unless some
    collected record has an equal ['url'] ([None] included); an exception
    while building the dict skips the element. *)
Definition record_original (s : State) (el : Element) : State :=
  match el with
  | Raise => s
  | Ret product_data =>
      if existsb (fun p => bool_decide (url p = url product_data)) (products s)
      then s
      else mkState (log s) (products s ++ [product_data]) (seen_urls s)
  end.

Definition extract_page_products_original : M unit :=
  els <- query_selector_all ;;
  modify (fun s => foldl record_original s els).

(** Python's truth value of [product_data.get('url')]. *)
Definition truthy (u : option string) : bool :=
  match u with
  | Some x => negb (String.eqb x EmptyString)
  | None => false
  end.

(** [main_cli_optimized.py], the body of the [for]:
    [if url and url not in self.seen_urls]. *)
Definition record_optimized (s : State) (el : Element) : State :=
  match el with
  | Raise => s
  | Ret product_data =>
      match url product_data with
      | Some u =>
          if truthy (Some u) && bool_decide (u ∉ seen_urls s)
          then mkState (log s) (products s ++ [product_data])
                       ({[u]} ∪ seen_urls s)
          else s
      | None => s
      end
  end.

(** [products[start_index:]] is [drop start_index]; for [start_index = 0]
    the list is left whole. *)
Definition extract_page_products_optimized (start_index : nat) : M unit :=
  els <- query_selector_all ;;
  modify (fun s => foldl record_optimized s (drop start_index els)).

(** The two source files share the traversal loop; they differ in the pass. *)
Inductive source_file : Type := MainCli | MainCliOptimized.

Definition extract_page_products (src : source_file) (start_index : nat)
    : M unit :=
  match src with
  | MainCli => extract_page_products_original
  | MainCliOptimized => extract_page_products_optimized start_index
  end.

(** ** [extract_all_products] *)

(** The [for sel in ...] of the two click strategies: the first selector
    whose element is found, enabled and visible is clicked. *)
Fixpoint click_first (sels : list string) : M bool :=
  match sels with
  | [] => ret false
  | sel :: rest =>
      btn <- query_selector sel ;;
      if btn then
        enabled <- is_enabled sel ;;
        if enabled then
          visible <- is_visible sel ;;
          if visible then click sel ;;; ret true
          else click_first rest
        else click_first rest
      else click_first rest
  end.

Variable src : source_file.
Variable fuel : nat.

(** Each strategy returns [true] when it reached its [continue]. *)
Definition strategy_load_more (prev : nat) : M bool :=
  try_except
    (clicked <- click_first load_more_selectors ;;
     if clicked then
       increased <- wait_for_increase fuel prev 15000 300 ;;
       if increased then extract_page_products src prev ;;; ret true
       else ret false
     else ret false)
    (ret false).

Definition strategy_next_page (prev : nat) : M bool :=
  try_except
    (clicked <- click_first next_selectors ;;
     if clicked then
       try_except wait_for_load_state (ret tt) ;;;
       increased <- wait_for_increase fuel prev 15000 300 ;;
       if increased then extract_page_products src prev ;;; ret true
       else ret false
     else ret false)
    (ret false).

(** [for _ in range(10)] of the scroll strategy, with its two locals. *)
Fixpoint scroll_loop (steps : nat) (increased : bool) (prev : nat)
    : M (bool * nat) :=
  match steps with
  | O => ret (increased, prev)
  | S steps' =>
      scroll_to_bottom ;;;
      wait_for_timeout 700 ;;;
      c <- products_count ;;
      if (prev <? c)%nat then
        prev' <- products_count ;;
        scroll_loop steps' true prev'
      else ret (increased, prev)
  end.

Definition strategy_scroll (prev : nat) : M bool :=
  try_except
    (r <- scroll_loop 10 false prev ;;
     if fst r then extract_page_products src (snd r) ;;; ret true
     else ret false)
    (ret false).

(** The body of the [while]: [true] for [continue], [false] for [break]. *)
Definition attempt : M bool :=
  prev <- products_count ;;
  c1 <- strategy_load_more prev ;;
  if c1 then ret true
  else
    c2 <- strategy_next_page prev ;;
    if c2 then ret true
    else strategy_scroll prev.

(** [while attempts < max_attempts]; [n] bounds the iterations of the
    model.  The value is the final [attempts]. *)
Fixpoint attempt_loop (n : nat) (attempts max_attempts : Z) : M Z :=
  match n with
  | O => out_of_fuel
  | S n' =>
      if (attempts <? max_attempts)%Z then
        let attempts := (attempts + 1)%Z in
        go_on <- attempt ;;
        if go_on then attempt_loop n' attempts max_attempts
        else ret attempts
      else ret attempts
  end.

Definition extract_all_products (max_attempts : Z) : M Z :=
  extract_page_products src 0 ;;;
  attempt_loop (S (Z.to_nat max_attempts)) 0 max_attempts.

(** ** [run] *)

Definition handle_cookies : M unit :=
  try_except
    (perform ClickCookie (pg_click_cookie pg) ;;; wait_for_timeout 1000)
    (ret tt).

Definition open_page (location : string) : M unit :=
  perform Launch (pg_launch pg) ;;;
  perform NewContext (pg_new_context pg) ;;;
  perform NewPage (pg_new_page pg) ;;;
  perform (Goto location) (fun h => pg_goto pg h location).

End Scraper.

Arguments extract_all_products pg src fuel max_attempts : rename.
Arguments truthy : simpl never.

(** [run] up to [browser.close()] (what follows only writes the file).  The
    value is the number of iterations of the attempt loop that were run. *)
Definition run_original (pg : Page) (fuel : nat) (max_attempts : Z)
    (location : string) : M Z :=
  open_page pg location ;;;
  handle_cookies pg ;;;
  attempts <- extract_all_products pg MainCli fuel max_attempts ;;
  perform Close (pg_close pg) ;;;
  ret attempts.

Definition run_optimized (pg : Page) (fuel : nat) (max_attempts : Z)
    (location : string) (single_page_only : bool) : M Z :=
  open_page pg location ;;;
  handle_cookies pg ;;;
  try_except (perform WaitForSelector (pg_wait_for_selector pg)) (ret tt) ;;;
  attempts <- (if single_page_only
               then extract_page_products_optimized pg 0 ;;; ret 0%Z
               else extract_all_products pg MainCliOptimized fuel max_attempts) ;;
  perform Close (pg_close pg) ;;;
  ret attempts.

(** ** The merge of the shard results ([main], single-URL sharded mode) *)

(** The dict returned by [process_url_task]; ['products'] is present only
    when [return_products] was set. *)
Record shard_result := mkResult {
  r_url : string;
  r_output : string;
  r_count : nat;
  r_products : option (list product)
}.

(** [r.get('products', []) if r.get('products') else []] *)
Definition shard_products (r : shard_result) : list product :=
  match r_products r with
  | Some ps => ps
  | None => []
  end.

(** The body of the inner [for]: [acc] is [(all_products, seen)]. *)
Definition merge_record (acc : list product * gset string) (p : product)
    : list product * gset string :=
  match url p with
  | Some u =>
      if truthy (Some u) && bool_decide (u ∉ acc.2)
      then (acc.1 ++ [p], {[u]} ∪ acc.2)
      else acc
  | None => acc
  end.

Definition merge_from (acc : list product * gset string)
    (results : list shard_result) : list product * gset string :=
  foldl (fun acc r => foldl merge_record acc (shard_products r)) acc results.

Definition merge_shards (results : list shard_result) : list product :=
  (merge_from ([], ∅) results).1.

(** ** [build_page_url] and the shard plan *)

(** A location as [urlparse] splits it.  The query is held as the list of
    (name, value) pairs that [parse_qsl(..., keep_blank_values=True)] reads
    from it and that [urlencode] writes back, in order. *)
Record ParseResult := mkUrl {
  scheme : string;
  netloc : string;
  path : string;
  params : string;
  query : list (string * string);
  fragment : string
}.

(** [d[k] = v] on a Python dict, kept as its items in insertion order: an
    existing key keeps its place, a new one goes last. *)
Fixpoint dict_set (d : list (string * string)) (k v : string)
    : list (string * string) :=
  match d with
  | [] => [(k, v)]
  | (k', v') :: d' =>
      if String.eqb k' k then (k', v) :: d'
      else (k', v') :: dict_set d' k v
  end.

(** [dict(pairs)] *)
Definition dict_of_pairs (pairs : list (string * string))
    : list (string * string) :=
  foldl (fun d kv => dict_set d kv.1 kv.2) [] pairs.

(** [str(page_num)] *)
Definition str (n : Z) : string := pretty n.

Definition build_page_url (base_url : ParseResult) (page_num : Z)
    : ParseResult :=
  let q := dict_of_pairs (query base_url) in
  let q := dict_set q "page" (str page_num) in
  mkUrl (scheme base_url) (netloc base_url) (path base_url)
        (params base_url) q (fragment base_url).

(** [range(1, max(2, args.max_pages) + 1)] *)
Definition shard_pages (max_pages : Z) : list Z :=
  seqZ 1 (Z.max 2 max_pages + 1 - 1).

Definition shard_urls (location : ParseResult) (max_pages : Z)
    : list ParseResult :=
  map (build_page_url location) (shard_pages max_pages).

(** ** The configuration, [process_url_task] and the modes of [main] *)

(** [self.config] *)
Record config := mkConfig {
  timeout : Z;
  headless : bool;
  user_agent : string;
  max_load_attempts : Z
}.

(** [__init__] *)
Definition default_config : config :=
  mkConfig 30000 true
    "Mozilla/5.0 (Windows NT 10.0; Win64; x64) AppleWebKit/537.36 (KHTML, like Gecko) Chrome/91.0.4472.124 Safari/537.36"
    20.

(** What the process sees of its host: [platform.system().lower() == 'linux']
    and [bool(os.environ.get('DISPLAY'))]. *)
Record host := mkHost {
  on_linux : bool;
  has_display : bool
}.

(** The overrides that [process_url_task] and both [main] apply to a new
    scraper, in their order: [--no-headless], [--max-attempts], and the
    forcing of the headless mode where there is no X server. *)
Definition apply_overrides (no_headless : bool) (max_attempts : option Z)
    (h : host) (c : config) : config :=
  let c := if no_headless
           then mkConfig (timeout c) false (user_agent c) (max_load_attempts c)
           else c in
  let c := match max_attempts with
           | Some n =>
               if 0 <? n
               then mkConfig (timeout c) (headless c) (user_agent c) n
               else c
           | None => c
           end in
  if negb (headless c) then
    if on_linux h && negb (has_display h)
    then mkConfig (timeout c) true (user_agent c) (max_load_attempts c)
    else c
  else c.

(** The tuple [task] of [process_url_task]. *)
Record task := mkTask {
  t_url : string;
  t_fmt : string;
  t_output_dir : option string;
  t_no_headless : bool;
  t_max_attempts : option Z;
  t_single_page_only : bool;
  t_output_file : option string;
  t_return_products : bool
}.

(** [process_url_task], run in a process of its own: a new scraper, on the
    page [web] serves at the task's location.  [out_file] is the path the
    task writes to: the given one or, from [_ensure_output_path], the slug of
    the location with a time stamp, in an output directory whose creation can
    raise. *)
Definition process_url_task (web : string → Page) (h : host) (fuel : nat)
    (out_file : task → res string) (t : task) : outcome shard_result :=
  let cfg := apply_overrides (t_no_headless t) (t_max_attempts t) h
               default_config in
  match out_file t with
  | Raise => Exc
  | Ret path =>
      match run_optimized (web (t_url t)) fuel (max_load_attempts cfg)
              (t_url t) (t_single_page_only t) initial_state with
      | (s, Ok _) =>
          Ok (mkResult (t_url t) path (length (products s))
                (if t_return_products t then Some (products s) else None))
      | (_, Exc) => Exc
      | (_, OutOfFuel) => OutOfFuel
      end
  end.

(** The loop over [as_completed(future_map)]: [completed] lists the tasks in
    the order their futures complete; the result of a task that raised is
    left out.  [None] when the model of a task ran out of fuel. *)
Fixpoint gather (run_task : task → outcome shard_result)
    (completed : list task) (results : list shard_result)
    : option (list shard_result) :=
  match completed with
  | [] => Some results
  | t :: rest =>
      match run_task t with
      | Ok res => gather run_task rest (results ++ [res])
      | Exc => gather run_task rest results
      | OutOfFuel => None
      end
  end.

Section Main.

(** [urlunparse], with the query written by [urlencode]. *)
Variable unparse : ParseResult → string.
Variables (web : string → Page) (h : host) (fuel : nat).
Variable out_file : task → res string.


(** The records written to the final file, for a completion order. *)
Definition main_sharded (completed : list task) : option (list product) :=
  merge_shards <$> gather (process_url_task web h fuel out_file) completed [].

(** [main] with several URLs: one task per URL, no records returned. *)
Definition url_tasks (urls : list string) (fmt : string)
    (output_dir : option string) (no_headless : bool)
    (max_attempts : option Z) : list task :=
  map (λ u, mkTask u fmt output_dir no_headless max_attempts false None false)
      urls.

(** The pair printed at the end of the multi-URL mode: the number of URLs
    processed and the total of their counts. *)
Definition main_multi (completed : list task) : option (nat * nat) :=
  (λ results, (length results, foldr (λ r n, (r_count r + n)%nat) 0%nat results))
  <$> gather (process_url_task web h fuel out_file) completed [].

End Main.

(** [main] of [main_cli.py], and [main] of [main_cli_optimized.py] with one
    URL and no [--parallel-single]: the overrides, then [run]. *)
Definition main_original (pg : Page) (h : host) (fuel : nat)
    (no_headless : bool) (max_attempts : option Z) (location : string)
    : State * outcome Z :=
  let cfg := apply_overrides no_headless max_attempts h default_config in
  run_original pg fuel (max_load_attempts cfg) location initial_state.

Definition main_single (pg : Page) (h : host) (fuel : nat)
    (no_headless : bool) (max_attempts : option Z) (location : string)
    : State * outcome Z :=
  let cfg := apply_overrides no_headless max_attempts h default_config in
  run_optimized pg fuel (max_load_attempts cfg) location false initial_state.

(** ** The field extractors *)

(** An element handle as the extractors use it: what [query_selector] finds
    under it for a selector, its [inner_text()] and its attributes.  Each of
    the three calls can raise.  The handle is read as a snapshot: the same
    call gives the same answer. *)
#[warnings="-register-all"] Inductive ElementHandle : Type :=
| mkElement (query_selector : string → res (option ElementHandle))
            (inner_text : res string)
            (get_attribute : string → res (option string)).

Definition el_query_selector (e : ElementHandle) (selector : string)
    : res (option ElementHandle) :=
  match e with mkElement q _ _ => q selector end.

Definition el_inner_text (e : ElementHandle) : res string :=
  match e with mkElement _ t _ => t end.

Definition el_get_attribute (e : ElementHandle) (attr : string)
    : res (option string) :=
  match e with mkElement _ _ a => a attr end.

(** Sequencing of calls that can raise, and [try: ... except: return h]. *)
Definition res_bind {A B} (m : res A) (f : A → res B) : res B :=
  match m with
  | Ret a => f a
  | Raise => Raise
  end.

Definition catch {A} (m : res A) (h : A) : A :=
  match m with
  | Ret a => a
  | Raise => h
  end.

(** Python's truth value of a string. *)
Definition nonempty (s : string) : bool := negb (String.eqb s "").

(** [all(P(c) for c in s)] *)
Fixpoint str_all (P : ascii → bool) (s : string) : bool :=
  match s with
  | String c s' => P c && str_all P s'
  | EmptyString => true
  end.

Section Extractors.

(** [str.isspace] and [str.isdigit] on one character, and [urljoin]. *)
Variable isspace : ascii → bool.
Variable isdigit : ascii → bool.
Variable urljoin : string → string → string.

(** [s.lstrip()], [s.rstrip()], [s.strip()] *)
Fixpoint str_lstrip (s : string) : string :=
  match s with
  | String c s' => if isspace c then str_lstrip s' else s
  | EmptyString => EmptyString
  end.

Fixpoint str_rstrip (s : string) : string :=
  match s with
  | String c s' =>
      match str_rstrip s' with
      | EmptyString => if isspace c then EmptyString else String c EmptyString
      | r => String c r
      end
  | EmptyString => EmptyString
  end.

Definition str_strip (s : string) : string := str_rstrip (str_lstrip s).

(** [s.split()]: the maximal runs of characters that are not whitespace;
    [cur] is the run being read. *)
Fixpoint split_from (cur : string) (s : string) : list string :=
  match s with
  | String c s' =>
      if isspace c
      then (if nonempty cur then cur :: split_from "" s' else split_from "" s')
      else split_from (cur +:+ String c "") s'
  | EmptyString => if nonempty cur then [cur] else []
  end.

Definition str_split (s : string) : list string := split_from "" s.

(** [s.split(sep)] for a separator of one character: empty pieces are kept. *)
Fixpoint split_on_from (sep : ascii) (cur : string) (s : string)
    : list string :=
  match s with
  | String c s' =>
      if Ascii.eqb c sep
      then cur :: split_on_from sep "" s'
      else split_on_from sep (cur +:+ String c "") s'
  | EmptyString => [cur]
  end.

Definition str_split_on (sep : ascii) (s : string) : list string :=
  split_on_from sep "" s.

(** [s.isdigit()]: at least one character, and only digits. *)
Definition str_isdigit (s : string) : bool :=
  nonempty s && str_all isdigit s.

Definition safe_extract (parent : ElementHandle) (selector : string)
    (attr : option string) : option string :=
  catch
    (res_bind (el_query_selector parent selector) (λ element,
       match element with
       | None => Ret None
       | Some element =>
           if truthy attr then el_get_attribute element (default "" attr)
           else
             res_bind (el_inner_text element) (λ text,
               let text := str_strip text in
               Ret (if nonempty text
                    then Some (String.concat " " (str_split text))
                    else None))
       end))
    None.

Definition extract_price (product_element : ElementHandle) : option string :=
  let whole :=
    safe_extract product_element ".product-price__content:nth-child(1)" None in
  let decimal :=
    safe_extract product_element ".product-price__content:nth-child(2)" None in
  let currency :=
    safe_extract product_element ".product-price__content:nth-child(3)" None in
  match whole, decimal, currency with
  | Some w, Some d, Some c =>
      if nonempty w && nonempty d && nonempty c
      then Some (w +:+ d +:+ " " +:+ str_strip c)
      else safe_extract product_element ".product-price__amount--main" None
  | _, _, _ => safe_extract product_element ".product-price__amount--main" None
  end.

Definition extract_product_url (product_element : ElementHandle)
    : option string :=
  catch
    (res_bind (el_query_selector product_element ("a[href^=" +:+ dq +:+ "/p/" +:+ dq +:+ "]"))
       (λ link,
          match link with
          | None => Raise
          | Some link =>
              res_bind (el_get_attribute link "href") (λ path,
                Ret (match path with
                     | Some path =>
                         if nonempty path
                         then Some (urljoin "https://www.carrefour.fr" path)
                         else None
                     | None => None
                     end))
          end))
    None.

Definition extract_ean (product_element : ElementHandle) : option string :=
  catch
    (res_bind (el_query_selector product_element "article") (λ article,
       let by_id :=
         match article with
         | Some article =>
             res_bind (el_get_attribute article "id") (λ article_id,
               Ret (match article_id with
                    | Some article_id =>
                        if nonempty article_id && str_isdigit article_id
                           && (String.length article_id =? 13)%nat
                        then Some article_id
                        else None
                    | None => None
                    end))
         | None => Ret None
         end in
       res_bind by_id (λ found,
         match found with
         | Some article_id => Ret (Some article_id)
         | None =>
             match extract_product_url product_element with
             | Some url =>
                 if nonempty url then
                   let ean := List.last (str_split_on "-" url) "" in
                   if str_isdigit ean && (String.length ean =? 13)%nat
                   then Ret (Some ean)
                   else Ret None
                 else Ret None
             | None => Ret None
             end
         end)))
    None.

End Extractors.

(** * The vocabulary of the properties *)

(** ** Merging *)

(** All records of the outcomes, in arrival order. *)
Definition arrived (results : list shard_result) : list product :=
  results ≫= shard_products.

(** The Merger as the specification words it: a record is appended when it
    has an identity key and no earlier record of the input carries that key;
    [earlier] holds the keys of the records already gone through. *)
Fixpoint first_seen (earlier : list (option string)) (l : list product)
    : list product :=
  match l with
  | [] => []
  | p :: l' =>
      if truthy (url p) && bool_decide (url p ∉ earlier)
      then p :: first_seen (url p :: earlier) l'
      else first_seen (url p :: earlier) l'
  end.

(** The identity keys of a collection, as a set. *)
Definition keys (ps : list product) : gset string := list_to_set (omap url ps).

(** The outcome that carries a collection back into [main]'s merge loop. *)
Definition as_result (ps : list product) : shard_result :=
  mkResult EmptyString EmptyString (length ps) (Some ps).

(** ** Locations *)

(** [d.get(k)] *)
Fixpoint dict_get (d : list (string * string)) (k : string) : option string :=
  match d with
  | [] => None
  | (k', v) :: d' => if String.eqb k' k then Some v else dict_get d' k
  end.

(** A listing location whose query repeats the name [filter]. *)
Definition url_repeated_filter : ParseResult :=
  mkUrl "https" "www.carrefour.fr" "/s" EmptyString
        [("q", "lait"); ("filter", "bio"); ("filter", "promo")] EmptyString.

(** ** Polling and the clock *)

(** What [products_count] returns when called at log [h]. *)
Definition observed (pg : Page) (h : History) : nat :=
  match pg_count pg h with
  | Ret n => n
  | Raise => 0%nat
  end.

(** The calls that only observe the surface. *)
Definition observation (poll_ms : Z) (c : Call) : Prop :=
  c = Now ∨ c = Count ∨ c = WaitTimeout poll_ms.

(** [stalled ... base rounds]: the calls [rounds], made after [base], are
    whole rounds of the polling loop in each of which the clock test
    passed, the count did not exceed [prev_count], and the wait returned. *)
Inductive stalled (pg : Page) (prev_count : nat) (timeout_ms poll_ms : Z)
    (start : Q) (base : History) : History → Prop :=
| stalled_nil : stalled pg prev_count timeout_ms poll_ms start base []
| stalled_round rounds :
    stalled pg prev_count timeout_ms poll_ms start base rounds →
    in_time (pg_clock pg (rounds ++ base)) start timeout_ms = true →
    (observed pg (Now :: rounds ++ base) ≤ prev_count)%nat →
    pg_wait_for_timeout pg (Count :: Now :: rounds ++ base) poll_ms = Ret tt →
    stalled pg prev_count timeout_ms poll_ms start base
      (WaitTimeout poll_ms :: Count :: Now :: rounds).

(** A clock that never runs backwards and on which a wait of [ms]
    milliseconds that returns takes at least [ms] milliseconds. *)
Record clock_ok (pg : Page) : Prop := {
  clock_mono : ∀ h c, (pg_clock pg h <= pg_clock pg (c :: h))%Q;
  clock_wait : ∀ h ms u,
    pg_wait_for_timeout pg h ms = Ret u →
    (pg_clock pg h + inject_Z ms * (1 # 1000)
     <= pg_clock pg (WaitTimeout ms :: h))%Q
}.

(** ** Strategies, attempts and passes *)

Inductive strategy : Type := LoadMore | NextPage | Scroll.

(** The strategy a call belongs to; the clock, the count, the waits and
    the listing of the tiles belong to none. *)
Definition strategy_of (c : Call) : option strategy :=
  match c with
  | QuerySelector sel | IsEnabled sel | IsVisible sel | Click sel =>
      if bool_decide (sel ∈ load_more_selectors) then Some LoadMore
      else if bool_decide (sel ∈ next_selectors) then Some NextPage
      else None
  | WaitLoadState => Some NextPage
  | ScrollBottom => Some Scroll
  | _ => None
  end.

(** No call of [new] belongs to a strategy other than [st]. *)
Definition within (st : strategy) (new : History) : Prop :=
  Forall (λ c, strategy_of c = None ∨ strategy_of c = Some st) new.

(** The calls [click_first sels] can make. *)
Definition control_call (sels : list string) (c : Call) : Prop :=
  ∃ sel, sel ∈ sels ∧
    (c = QuerySelector sel ∨ c = IsEnabled sel ∨ c = IsVisible sel
     ∨ c = Click sel).

(** What a pass does to the collected records once the tiles are listed. *)
Definition pass_effect (src : source_file) (start_index : nat)
    (els : list Element) (s : State) : State :=
  match src with
  | MainCli => foldl record_original s els
  | MainCliOptimized => foldl record_optimized s (drop start_index els)
  end.

(** The shape the two click strategies share: the controls [sels], and
    what is awaited between the click and the polling. *)
Definition click_strategy (pg : Page) (src : source_file) (fuel : nat)
    (sels : list string) (settle : M unit) (prev : nat) : M bool :=
  try_except
    (clicked <- click_first pg sels ;;
     if clicked then
       settle ;;;
       increased <- wait_for_increase pg fuel prev 15000 300 ;;
       if increased then extract_page_products pg src prev ;;; ret true
       else ret false
     else ret false)
    (ret false).

(** What an attempt knows when a strategy returns: [true] comes with a
    poll that saw the count above [prev] and with a pass that listed the
    tiles; [false] leaves the collected records as they were. *)
Definition strategy_post (pg : Page) (src : source_file) (prev : nat)
    (s : State) (new : History) (s' : State) (r : outcome bool) : Prop :=
  r ≠ Exc
  ∧ log s' = new ++ log s
  ∧ (r = Ok false → products s' = products s ∧ seen_urls s' = seen_urls s)
  ∧ (r = Ok true →
       (∃ post pre, new = post ++ Count :: pre
          ∧ (prev < observed pg (pre ++ log s))%nat)
       ∧ ∃ start_index rest els,
           new = QuerySelectorAll :: rest
           ∧ pg_query_selector_all pg (rest ++ log s) = Ret els
           ∧ products s' = products (pass_effect src start_index els s)
           ∧ seen_urls s' = seen_urls (pass_effect src start_index els s)).

(** The calls of the scroll loop. *)
Definition scroll_call (c : Call) : Prop :=
  c = ScrollBottom ∨ c = WaitTimeout 700 ∨ c = Count.

(** The number of scroll steps in a stretch of the log. *)
Definition scroll_steps (new : list Call) : nat :=
  length (filter (λ c, c = ScrollBottom) new).

Ltac calls_ok :=
  repeat (apply Forall_cons_2; [unfold scroll_call; auto|]);
  try apply Forall_nil_2; try done.

(** What is known of one run of the body of the [while]. *)
Definition attempt_post (pg : Page) (src : source_file) (fuel : nat)
    (s s' : State) (r : outcome bool) : Prop :=
  r ≠ Exc
  ∧ (clock_ok pg → (51 ≤ fuel)%nat → r ≠ OutOfFuel)
  ∧ ∃ n1 n2 n3,
      log s' = n3 ++ n2 ++ n1 ++ Count :: log s
      ∧ within LoadMore n1 ∧ within NextPage n2 ∧ within Scroll n3
      ∧ (scroll_steps (n3 ++ n2 ++ n1) ≤ 10)%nat
      ∧ (r = Ok false →
           (∀ sel, head load_more_selectors = Some sel → QuerySelector sel ∈ n1)
           ∧ (∀ sel, head next_selectors = Some sel → QuerySelector sel ∈ n2)
           ∧ ScrollBottom ∈ n3
           ∧ products s' = products s ∧ seen_urls s' = seen_urls s)
      ∧ (r = Ok true →
           (∃ post pre, log s' = post ++ Count :: pre ++ Count :: log s
              ∧ (observed pg (log s) < observed pg (pre ++ Count :: log s))%nat)
           ∧ ∃ start_index h els,
               log s' = QuerySelectorAll :: h
               ∧ pg_query_selector_all pg h = Ret els
               ∧ products s' = products (pass_effect src start_index els s)
               ∧ seen_urls s' = seen_urls (pass_effect src start_index els s)).

(** What is known when the loop has ended with [k] in [attempts]. *)
Definition loop_post (pg : Page) (src : source_file) (fuel : nat)
    (attempts max_attempts : Z) (s s' : State) (k : Z) : Prop :=
  attempts ≤ k ≤ Z.max attempts max_attempts
  ∧ (k < max_attempts → attempts < k
     ∧ ∃ s0, attempt pg src fuel s0 = (s', Ok false))
  ∧ ∃ new, log s' = new ++ log s
      ∧ (scroll_steps new ≤ 10 * Z.to_nat (k - attempts))%nat.

(** ** Simulated surfaces *)

(** Milliseconds spent in the waits of a log. *)
Definition waited (h : History) : Z :=
  foldr (λ c acc, match c with
                  | WaitTimeout ms => Z.max 0 ms + acc
                  | _ => acc
                  end) 0 h.

(** A clock that advances with the waits only. *)
Definition sim_clock (h : History) : Q := inject_Z (waited h) * (1 # 1000).

(** A surface on which every call returns: [items] are the tiles shown after
    a log, [control] tells which selectors match an enabled, visible
    element, and the count is the number of tiles. *)
Definition surface (items : History → list Element)
    (control : History → string → bool) : Page :=
  {| pg_launch := λ _, Ret tt;
     pg_new_context := λ _, Ret tt;
     pg_new_page := λ _, Ret tt;
     pg_goto := λ _ _, Ret tt;
     pg_click_cookie := λ _, Ret tt;
     pg_wait_for_selector := λ _, Ret tt;
     pg_close := λ _, Ret tt;
     pg_count := λ h, Ret (length (items h));
     pg_clock := sim_clock;
     pg_wait_for_timeout := λ _ _, Ret tt;
     pg_query_selector := λ h sel, Ret (control h sel);
     pg_is_enabled := λ _ _, Ret true;
     pg_is_visible := λ _ _, Ret true;
     pg_click := λ _ _, Ret tt;
     pg_wait_for_load_state := λ _, Ret tt;
     pg_scroll := λ _, Ret tt;
     pg_query_selector_all := λ h, Ret (items h) |}.

(** A tile whose link resolves to the product page [slug]. *)
Definition tile (slug : string) : Element :=
  Ret (mkProduct (Some slug) None None None None None
         (Some ("https://www.carrefour.fr/p/" +:+ slug))).

(** A tile without a product link: its ['url'] is [None]. *)
Definition tile_without_link (title : string) : Element :=
  Ret (mkProduct (Some title) None None None None None None).

Definition clicks (sel : string) (h : History) : nat :=
  length (filter (λ c, c = Click sel) h).

Definition load_more_button : string :=
  "button[aria-label=" +:+ dq +:+ "Afficher les produits suivants" +:+ dq +:+ "]".
Definition next_link : string := "a[rel=" +:+ dq +:+ "next" +:+ dq +:+ "]".

(** A load-more button that loads nothing, and a next-page link whose
    first click brings a second tile. *)
Definition page_cascade : Page :=
  surface
    (λ h, if (0 <? clicks next_link h)%nat
          then [tile "lait-a"; tile "lait-b"] else [tile "lait-a"])
    (λ _ sel, bool_decide (sel = load_more_button)
              || bool_decide (sel = next_link)).

(** Pagination that replaces the tiles: the next page shows two other
    products. *)
Definition page_replaced : Page :=
  surface
    (λ h, if (0 <? clicks next_link h)%nat
          then [tile "lait-b"; tile "lait-c"] else [tile "lait-a"])
    (λ h sel, bool_decide (sel = next_link)
              && bool_decide (clicks next_link h = 0%nat)).

(** Infinite scroll: the first scroll brings a second tile. *)
Definition page_scrolled : Page :=
  surface
    (λ h, if bool_decide (ScrollBottom ∈ h)
          then [tile "lait-a"; tile "lait-b"] else [tile "lait-a"])
    (λ _ _, false).

(** A surface whose listing of the tiles raises. *)
Definition page_listing_fails : Page :=
  {| pg_launch := λ _, Ret tt;
     pg_new_context := λ _, Ret tt;
     pg_new_page := λ _, Ret tt;
     pg_goto := λ _ _, Ret tt;
     pg_click_cookie := λ _, Ret tt;
     pg_wait_for_selector := λ _, Ret tt;
     pg_close := λ _, Ret tt;
     pg_count := λ _, Ret 0%nat;
     pg_clock := sim_clock;
     pg_wait_for_timeout := λ _ _, Ret tt;
     pg_query_selector := λ _ _, Ret false;
     pg_is_enabled := λ _ _, Ret true;
     pg_is_visible := λ _ _, Ret true;
     pg_click := λ _ _, Ret tt;
     pg_wait_for_load_state := λ _, Ret tt;
     pg_scroll := λ _, Ret tt;
     pg_query_selector_all := λ _, Raise |}.

(** A surface on which the tiles can be listed, while the controls, the
    scroll and the count all raise. *)
Definition page_actions_raise : Page :=
  {| pg_launch := λ _, Ret tt;
     pg_new_context := λ _, Ret tt;
     pg_new_page := λ _, Ret tt;
     pg_goto := λ _ _, Ret tt;
     pg_click_cookie := λ _, Raise;
     pg_wait_for_selector := λ _, Raise;
     pg_close := λ _, Ret tt;
     pg_count := λ _, Raise;
     pg_clock := sim_clock;
     pg_wait_for_timeout := λ _ _, Raise;
     pg_query_selector := λ _ _, Raise;
     pg_is_enabled := λ _ _, Raise;
     pg_is_visible := λ _ _, Raise;
     pg_click := λ _ _, Raise;
     pg_wait_for_load_state := λ _, Raise;
     pg_scroll := λ _, Raise;
     pg_query_selector_all := λ _, Ret [Raise; tile "lait-a"] |}.

(** ** One attempt, as the specification words it *)


(** [page_cascade] once the first pass has been made. *)
Definition cascade_first_pass : State :=
  (extract_page_products page_cascade MainCli 0 initial_state).1.


(** ** Single-pass runs *)

(** The calls of [run(..., single_page_only=True)]: none of them is a
    loading action, and none reads the count. *)
Definition single_pass_calls (location : string) : list Call :=
  [Launch; NewContext; NewPage; Goto location; ClickCookie; WaitTimeout 1000;
   WaitForSelector; QuerySelectorAll; Close].

(** The number of passes in a stretch of the log. *)
Definition passes (new : list Call) : nat :=
  length (filter (λ c, c = QuerySelectorAll) new).

Ltac step_page :=
  match goal with
  | |- context [match ?x with Ret _ => _ | Raise => _ end] =>
      destruct x as [?|] eqn:?; simpl
  end.

Ltac prefix_of L l :=
  lazymatch L with
  | l => constr:(@nil Call)
  | ?c :: ?L' => let p := prefix_of L' l in constr:(c :: p)
  end.

Ltac give_new :=
  lazymatch goal with
  | |- ∃ new, ?L = new ++ ?l ∧ _ =>
      let p := prefix_of L l in exists p
  end.

(** A grid whose only tile has no product link. *)
Definition page_unlinked : Page :=
  surface (λ _, [tile_without_link "Lot de 6 briques"]) (λ _ _, false).

(** ** Sequences of passes *)

(** A sequence of passes: each with its [start_index] and the tiles listed.
    [main_cli.py] ignores the index. *)
Definition run_passes (src : source_file)
    (snapshots : list (nat * list Element)) (s : State) : State :=
  foldl (λ s snap, pass_effect src snap.1 snap.2 s) s snapshots.

(** The snapshots of a surface that only appends: after [shown], each pass
    lists what the pass before listed followed by a fresh batch, and starts
    at the length of what the pass before listed. *)
Fixpoint accumulate (shown : list Element) (batches : list (list Element))
    : list (nat * list Element) :=
  match batches with
  | [] => []
  | batch :: rest =>
      (length shown, shown ++ batch) :: accumulate (shown ++ batch) rest
  end.

(** No tile carries an empty ['url']: [extract_product_url] returns a
    joined absolute URL or [None]. *)
Definition linked_or_none (el : Element) : Prop :=
  ∀ p, el = Ret p → url p ≠ Some EmptyString.

(** [el] is a tile whose record [main_cli.py] would reject as a duplicate. *)
Definition recorded (s : State) (el : Element) : Prop :=
  match el with
  | Ret p => url p ∈ url <$> products s
  | Raise => True
  end.

(** One pass of each extractor over the same tiles: the optimized one holds
    the records of the original one that have a ['url'], and has seen
    exactly their URLs. *)
Definition same_identified (so sp : State) : Prop :=
  products sp = filter (λ p, url p ≠ None) (products so)
  ∧ ∀ u, u ∈ seen_urls sp ↔ Some u ∈ url <$> products so.

(** ** Invariants of a run *)

(** [m] keeps a property of the collected records and of the seen URLs,
    whatever its outcome. *)
Definition keeps {A} (I : list product → gset string → Prop) (m : M A) : Prop :=
  ∀ s, I (products s) (seen_urls s) →
       I (products (m s).1) (seen_urls (m s).1).

(** The step of the [for] of a pass keeps [I]. *)
Definition pass_stable (src : source_file)
    (I : list product → gset string → Prop) : Prop :=
  ∀ s el, I (products s) (seen_urls s) →
    match src with
    | MainCli =>
        I (products (record_original s el)) (seen_urls (record_original s el))
    | MainCliOptimized =>
        I (products (record_optimized s el)) (seen_urls (record_optimized s el))
    end.

(** What the optimized scraper keeps true of its two fields. *)
Definition optimized_fields (ps : list product) (seen : gset string) : Prop :=
  NoDup (url <$> ps)
  ∧ Forall (λ p, truthy (url p) = true) ps
  ∧ ∀ u, u ∈ seen ↔ Some u ∈ url <$> ps.

(** ** The controls of a click strategy *)





(** ** The modes of [main] *)

(** [m] returns or raises without a bound on its loops. *)
Definition returns {A} (m : M A) : Prop := ∀ s, (m s).2 ≠ OutOfFuel.

(** The results of the tasks that returned, in their order of completion. *)
Definition returned (run_task : task → outcome shard_result)
    (completed : list task) : list shard_result :=
  omap (λ t, match run_task t with Ok res => Some res | _ => None end)
       completed.


(** A web for three shard tasks: two locations show the same product, the
    listing of the third fails. *)
Definition web_of_shards (location : string) : Page :=
  if String.eqb location "shard-3" then page_listing_fails else page_cascade.

Definition shard_task (location : string) : task :=
  mkTask location "csv" None false None true None true.

Definition this_host : host := mkHost true false.

(** Output paths that never fail: the location itself. *)
Definition at_location (t : task) : res string := Ret (t_url t).


(** ** The field extractors *)

(** A word: not empty, and without whitespace. *)
Definition word (isspace : ascii → bool) (w : string) : Prop :=
  nonempty w = true ∧ str_all (λ c, negb (isspace c)) w = true.

(** A leaf element with a text, and a tile as the extractors read it: a
    title, the three parts of a price, an [article] with an id, a link. *)
Definition leaf (text : string) : ElementHandle :=
  mkElement (λ _, Ret None) (Ret text) (λ _, Ret None).

Definition with_attribute (attr value : string) : ElementHandle :=
  mkElement (λ _, Ret None) Raise
    (λ a, Ret (if String.eqb a attr then Some value else None)).

Definition milk_tile : ElementHandle :=
  mkElement
    (λ selector,
       if String.eqb selector ".product-list-card-plp-grid__title"
       then Ret (Some (leaf "  Lait   demi  ecreme 1L "))
       else if String.eqb selector ".product-price__content:nth-child(1)"
       then Ret (Some (leaf "1"))
       else if String.eqb selector ".product-price__content:nth-child(2)"
       then Ret (Some (leaf ",05"))
       else if String.eqb selector ".product-price__content:nth-child(3)"
       then Ret (Some (leaf " EUR "))
       else if String.eqb selector "article"
       then Ret (Some (with_attribute "id" "lait"))
       else if String.eqb selector ("a[href^=" +:+ dq +:+ "/p/" +:+ dq +:+ "]")
       then Ret (Some (with_attribute "href" "/p/lait-demi-ecreme-3560070123456"))
       else Ret None)
    Raise
    (λ _, Ret None).

Definition ascii_isdigit (c : ascii) : bool :=
  match Ascii.is_nat c with Some _ => true | None => false end.

(** ** The calls of a run *)

(** Every call that [m] makes satisfies [P]. *)
Definition emits {A} (P : Call → Prop) (m : M A) : Prop :=
  ∀ s, ∃ new, log (m s).1 = new ++ log s ∧ Forall P new.

(** The calls of the traversal: counting, polling the clock, waiting,
    looking for a control and clicking it, scrolling, listing the tiles. *)
Definition traversal_call (c : Call) : Prop :=
  match c with
  | Launch | NewContext | NewPage | Goto _ | ClickCookie | WaitForSelector
  | Close => False
  | _ => True
  end.

(** What a run from [s] leaves in the log, and how it can end: [Launch] is
    its oldest call; the browser is closed at most once, by the newest call;
    a run that returns has closed it, after opening the page and trying
    the cookie banner; a run that raises has [raised] as its newest call. *)
Definition lifecycle (pg : Page) (location : string) (s : State)
    (end_ : State * outcome Z) : Prop :=
  ∃ new,
    log end_.1 = new ++ Launch :: log s
    ∧ (Close ∉ new ∨ ∃ rest, new = Close :: rest ∧ (Close ∉ rest))
    ∧ (∀ k, end_.2 = Ok k →
         ∃ mid, new = Close :: mid
                        ++ [ClickCookie; Goto location; NewPage; NewContext])
    ∧ (end_.2 = Exc →
         ∃ c h, log end_.1 = c :: h
           ∧ match c with
             | Launch => pg_launch pg h = Raise
             | NewContext => pg_new_context pg h = Raise
             | NewPage => pg_new_page pg h = Raise
             | Goto l => l = location ∧ pg_goto pg h location = Raise
             | QuerySelectorAll => pg_query_selector_all pg h = Raise
             | Close => pg_close pg h = Raise
             | _ => False
             end).

(** * Properties *)

(** ** The merge *)

Lemma merge_from_arrived acc results :
  merge_from acc results = foldl merge_record acc (arrived results).
Proof.
  unfold merge_from, arrived. revert acc.
  induction results as [|r rs IH]; intros acc; csimpl; [done|].
  by rewrite foldl_app, IH.
Qed.

Lemma truthy_Some_url p : truthy (url p) = true → ∃ u, url p = Some u.
Proof. destruct (url p); [eauto | discriminate]. Qed.

(** The loop invariant of the merge: [seen] holds exactly the usable keys
    met so far. *)
Lemma merge_record_first_seen l : ∀ acc seen earlier,
  (∀ u, truthy (Some u) = true → u ∈ seen ↔ Some u ∈ earlier) →
  (foldl merge_record (acc, seen) l).1 = acc ++ first_seen earlier l.
Proof.
  induction l as [|p l IH]; intros acc seen earlier Hinv; simpl.
  - by rewrite app_nil_r.
  - unfold merge_record at 2. simpl.
    destruct (url p) as [u|] eqn:Hu.
    + destruct (truthy (Some u)) eqn:Ht; simpl.
      * destruct (decide (u ∈ seen)) as [Hin|Hnin].
        -- rewrite (bool_decide_eq_false_2 (u ∉ seen)) by tauto.
           rewrite (bool_decide_eq_false_2 (Some u ∉ earlier))
             by (intros Hne; apply Hne, Hinv; done).
           apply IH. intros v Hv. rewrite elem_of_cons, <- Hinv by done.
           split; [auto|]. intros [Heq|?]; [|done]. by simplify_eq.
        -- rewrite (bool_decide_eq_true_2 (u ∉ seen)) by done.
           rewrite (bool_decide_eq_true_2 (Some u ∉ earlier))
             by (intros Hne; apply Hnin, Hinv; done).
           rewrite (IH (acc ++ [p]) _ (Some u :: earlier)).
           ++ by rewrite <- app_assoc.
           ++ intros v Hv. rewrite elem_of_union, elem_of_singleton,
                elem_of_cons, <- Hinv by done.
              split; intros [?|?]; simplify_eq; auto.
      * apply IH. intros v Hv. rewrite elem_of_cons, <- Hinv by done.
        split; [auto|]. intros [Heq|?]; [|done]. simplify_eq. congruence.
    + apply IH. intros v Hv. rewrite elem_of_cons, <- Hinv by done.
      split; [auto|]. intros [Heq|?]; [discriminate|done].
Qed.

Lemma merge_shards_first_seen results :
  merge_shards results = first_seen [] (arrived results).
Proof.
  unfold merge_shards. rewrite merge_from_arrived.
  rewrite (merge_record_first_seen _ [] ∅ []); [done|].
  intros u _. rewrite elem_of_nil. set_solver.
Qed.

Lemma first_seen_elem earlier l p :
  p ∈ first_seen earlier l →
  p ∈ l ∧ truthy (url p) = true ∧ url p ∉ earlier.
Proof.
  revert earlier. induction l as [|q l IH]; intros earlier; simpl.
  - intros H. by apply elem_of_nil in H.
  - destruct (truthy (url q)) eqn:Ht; simpl.
    + case_bool_decide as Hq.
      * intros [->|Hin]%elem_of_cons.
        -- split; [left|done].
        -- apply IH in Hin as (? & ? & Hne). split; [by right|].
           split; [done|]. intros ?. apply Hne. by right.
      * intros Hin. apply IH in Hin as (? & ? & Hne). split; [by right|].
        split; [done|]. intros ?. apply Hne. by right.
    + intros Hin. apply IH in Hin as (? & ? & Hne). split; [by right|].
      split; [done|]. intros ?. apply Hne. by right.
Qed.


Lemma first_seen_NoDup earlier l : NoDup (url <$> first_seen earlier l).
Proof.
  revert earlier. induction l as [|q l IH]; intros earlier; simpl.
  - constructor.
  - destruct (truthy (url q) && bool_decide (url q ∉ earlier)); [|done].
    rewrite fmap_cons. constructor; [|done].
    intros (p & Hp & Hin)%list_elem_of_fmap.
    apply first_seen_elem in Hin as (_ & _ & Hne).
    apply Hne. rewrite Hp. by left.
Qed.

Lemma first_seen_complete earlier l p :
  p ∈ l → truthy (url p) = true → url p ∉ earlier →
  url p ∈ url <$> first_seen earlier l.
Proof.
  revert earlier. induction l as [|q l IH]; intros earlier Hin Ht Hne.
  - by apply elem_of_nil in Hin.
  - simpl. apply elem_of_cons in Hin as [<-|Hin].
    + rewrite Ht, bool_decide_eq_true_2 by done. simpl. by left.
    + destruct (decide (url p = url q)) as [Heq|Hneq].
      * rewrite <- Heq, Ht, bool_decide_eq_true_2 by done. simpl.
        rewrite Heq. by left.
      * assert (url p ∉ url q :: earlier) as Hne'
          by (intros [?|?]%elem_of_cons; done).
        destruct (truthy (url q) && bool_decide (url q ∉ earlier));
          [rewrite fmap_cons; right|]; by apply IH.
Qed.



(** A collection already free of duplicate and unusable keys goes through
    the merge unchanged. *)
Lemma first_seen_fixed earlier l :
  NoDup (url <$> l) →
  (∀ q, q ∈ l → truthy (url q) = true ∧ url q ∉ earlier) →
  first_seen earlier l = l.
Proof.
  revert earlier. induction l as [|p l IH]; intros earlier Hnd Hall; [done|].
  simpl. rewrite fmap_cons in Hnd. apply NoDup_cons in Hnd as [Hp Hnd].
  destruct (Hall p) as [Ht Hne]; [left|].
  rewrite Ht, bool_decide_eq_true_2 by done. simpl. f_equal.
  apply IH; [done|]. intros q Hq. destruct (Hall q) as [Htq Hneq]; [by right|].
  split; [done|]. intros [Heq|?]%elem_of_cons; [|done].
  apply Hp. rewrite <- Heq. by apply list_elem_of_fmap_2.
Qed.

Lemma merge_shards_as_result ps :
  merge_shards [as_result ps] = first_seen [] ps.
Proof.
  rewrite merge_shards_first_seen. unfold arrived. csimpl.
  by rewrite app_nil_r.
Qed.

(** C8. Merging the output of a merge gives that output again, whatever the
    number of duplicates in the input: the same records in the same order,
    hence the same set of identity keys. *)
Theorem merge_shards_idempotent (results : list shard_result) :
  merge_shards [as_result (merge_shards results)] = merge_shards results
  ∧ keys (merge_shards [as_result (merge_shards results)])
    = keys (merge_shards results).
Proof.
  assert (merge_shards [as_result (merge_shards results)]
          = merge_shards results) as Heq; [|by rewrite Heq].
  rewrite merge_shards_as_result, merge_shards_first_seen.
  apply first_seen_fixed; [apply first_seen_NoDup|].
  intros q Hq. apply first_seen_elem in Hq as (_ & Ht & _).
  split; [done|apply not_elem_of_nil].
Qed.

(** The key set of a merge is the set of usable keys that arrived, so it
    does not depend on the order of the outcomes or on repetitions. *)
Lemma keys_merge_shards results (u : string) :
  u ∈ keys (merge_shards results)
  ↔ truthy (Some u) = true ∧ ∃ p, p ∈ arrived results ∧ url p = Some u.
Proof.
  unfold keys. rewrite elem_of_list_to_set, list_elem_of_omap.
  rewrite merge_shards_first_seen. split.
  - intros (p & Hp & Hu). apply first_seen_elem in Hp as (Hin & Ht & _).
    rewrite Hu in Ht. eauto.
  - intros (Ht & p & Hin & Hu).
    assert (url p ∈ url <$> first_seen [] (arrived results)) as Hk.
    { apply first_seen_complete; [done| by rewrite Hu |apply not_elem_of_nil]. }
    apply list_elem_of_fmap in Hk as (q & Hq & Hin').
    exists q. split; [done|]. by rewrite <- Hq.
Qed.

(** ** [build_page_url] *)

Lemma dict_get_set_eq d k v : dict_get (dict_set d k v) k = Some v.
Proof.
  induction d as [|[k' v'] d IH]; simpl.
  - by rewrite String.eqb_refl.
  - destruct (String.eqb k' k) eqn:E; simpl; by rewrite E.
Qed.

Lemma dict_get_set_ne d k v k' :
  k ≠ k' → dict_get (dict_set d k v) k' = dict_get d k'.
Proof.
  intros Hne. induction d as [|[k0 v0] d IH]; simpl.
  - by apply String.eqb_neq in Hne as ->.
  - destruct (String.eqb k0 k) eqn:E; simpl.
    + apply String.eqb_eq in E as ->. by apply String.eqb_neq in Hne as ->.
    + by rewrite IH.
Qed.

Lemma dict_set_fresh d k v : k ∉ d.*1 → dict_set d k v = d ++ [(k, v)].
Proof.
  induction d as [|[k' v'] d IH]; simpl; [done|].
  intros Hk. apply not_elem_of_cons in Hk as [Hne Hk].
  destruct (String.eqb k' k) eqn:E.
  - apply String.eqb_eq in E. congruence.
  - by rewrite IH.
Qed.

Lemma dict_of_pairs_from d l :
  NoDup ((d ++ l).*1) →
  foldl (λ d kv, dict_set d kv.1 kv.2) d l = d ++ l.
Proof.
  revert d. induction l as [|[k v] l IH]; intros d Hnd; simpl.
  - by rewrite app_nil_r.
  - rewrite dict_set_fresh.
    + rewrite IH; rewrite <- app_assoc; done.
    + rewrite fmap_app in Hnd. apply NoDup_app in Hnd as (_ & Hdis & _).
      intros Hk. apply (Hdis k Hk). simpl. left.
Qed.

(** Without a repeated name, [dict(parse_qsl(...))] keeps every pair. *)
Lemma dict_of_pairs_NoDup l : NoDup (l.*1) → dict_of_pairs l = l.
Proof. intros Hnd. unfold dict_of_pairs. by rewrite dict_of_pairs_from. Qed.

Lemma dict_set_others d k v :
  filter (λ kv, kv.1 ≠ k) (dict_set d k v) = filter (λ kv, kv.1 ≠ k) d.
Proof.
  induction d as [|[k' v'] d IH]; simpl.
  - by rewrite filter_cons_False by (simpl; tauto).
  - destruct (String.eqb k' k) eqn:E.
    + apply String.eqb_eq in E as ->.
      by rewrite !filter_cons_False by (simpl; tauto).
    + apply String.eqb_neq in E.
      rewrite !filter_cons_True by done. by rewrite IH.
Qed.

(** Scheme, host, path, parameters and fragment are carried over, and the
    query then reads [page = str(page_num)]. *)
Lemma build_page_url_frame base_url page_num :
  scheme (build_page_url base_url page_num) = scheme base_url
  ∧ netloc (build_page_url base_url page_num) = netloc base_url
  ∧ path (build_page_url base_url page_num) = path base_url
  ∧ params (build_page_url base_url page_num) = params base_url
  ∧ fragment (build_page_url base_url page_num) = fragment base_url
  ∧ dict_get (query (build_page_url base_url page_num)) "page"
    = Some (str page_num).
Proof. repeat split; simpl. apply dict_get_set_eq. Qed.

(** When no parameter name is repeated in the query, every other parameter
    is carried over, in place. *)
Lemma build_page_url_others base_url page_num :
  NoDup ((query base_url).*1) →
  filter (λ kv, kv.1 ≠ "page") (query (build_page_url base_url page_num))
  = filter (λ kv, kv.1 ≠ "page") (query base_url).
Proof.
  intros Hnd. simpl. by rewrite dict_set_others, dict_of_pairs_NoDup.
Qed.

(** The planned shards are the pages [1 .. max(2, max_pages)]: at least two. *)
Lemma shard_pages_cover max_pages :
  shard_pages max_pages = seqZ 1 (Z.max 2 max_pages)
  ∧ (2 ≤ length (shard_pages max_pages))%nat
  ∧ ∀ n, n ∈ shard_pages max_pages ↔ 1 ≤ n ≤ Z.max 2 max_pages.
Proof.
  unfold shard_pages. replace (Z.max 2 max_pages + 1 - 1) with (Z.max 2 max_pages) by lia.
  split; [done|]. split.
  - rewrite length_seqZ. lia.
  - intros n. rewrite elem_of_seqZ. lia.
Qed.

Lemma shard_urls_pages location max_pages :
  (λ u, dict_get (query u) "page") <$> shard_urls location max_pages
  = (λ n, Some (str n)) <$> shard_pages max_pages.
Proof.
  unfold shard_urls. rewrite <- list_fmap_compose.
  apply list_fmap_ext. intros i n _. simpl. apply dict_get_set_eq.
Qed.

Lemma dict_set_keys d k v x :
  x ∈ (dict_set d k v).*1 → x ∈ d.*1 ∨ x = k.
Proof.
  induction d as [|[k' v'] d IH]; simpl.
  - intros Hx. apply list_elem_of_singleton in Hx. by right.
  - destruct (String.eqb k' k); simpl; [by left|].
    intros [->|Hx]%elem_of_cons; [left; left|].
    destruct (IH Hx); [left; by right|by right].
Qed.

Lemma dict_set_NoDup d k v : NoDup (d.*1) → NoDup ((dict_set d k v).*1).
Proof.
  induction d as [|[k' v'] d IH]; simpl; intros Hnd.
  - apply NoDup_singleton.
  - apply NoDup_cons in Hnd as [Hk' Hnd].
    destruct (String.eqb k' k) eqn:E; simpl; [by constructor|].
    apply String.eqb_neq in E. constructor; [|by apply IH].
    intros [?|?]%dict_set_keys; [done|congruence].
Qed.

Lemma dict_of_pairs_NoDup_keys pairs : NoDup ((dict_of_pairs pairs).*1).
Proof.
  unfold dict_of_pairs.
  assert (∀ d, NoDup (d.*1) →
            NoDup ((foldl (λ d kv, dict_set d kv.1 kv.2) d pairs).*1)) as H.
  { induction pairs as [|kv pairs IH]; intros d Hd; simpl; [done|].
    by apply IH, dict_set_NoDup. }
  apply H. constructor.
Qed.

(** C7. The query that [build_page_url] returns never repeats a parameter
    name, so on a location whose query repeats a name only the last value
    of that name is kept: for [q=lait&filter=bio&filter=promo] the pair
    [filter=bio] is absent from the result, and not every other query
    parameter is carried over. *)
Theorem build_page_url_drops_repeated :
  (∀ base_url page_num,
     NoDup ((query (build_page_url base_url page_num)).*1))
  ∧ query (build_page_url url_repeated_filter 2)
    = [("q", "lait"); ("filter", "promo"); ("page", "2")]
  ∧ ("filter", "bio") ∈ query url_repeated_filter
  ∧ (("filter", "bio") ∉ query (build_page_url url_repeated_filter 2))
  ∧ filter (λ kv, kv.1 ≠ "page") (query (build_page_url url_repeated_filter 2))
    ≠ filter (λ kv, kv.1 ≠ "page") (query url_repeated_filter).
Proof.
  split.
  { intros base_url page_num. simpl.
    apply dict_set_NoDup, dict_of_pairs_NoDup_keys. }
  split; [reflexivity|]. split; [apply list_elem_of_In; simpl; tauto|]. split.
  - vm_compute. intros H. repeat (apply elem_of_cons in H as [H|H]; [discriminate|]).
    by apply elem_of_nil in H.
  - vm_compute. discriminate.
Qed.

(** ** [wait_for_increase] *)

Lemma products_count_eq pg s :
  products_count pg s = (logged Count s, Ok (observed pg (log s))).
Proof.
  unfold products_count, try_except, locator_count, perform, observed, ret.
  by destruct (pg_count pg (log s)).
Qed.

Lemma stalled_observation pg prev tmo poll start base rounds :
  stalled pg prev tmo poll start base rounds → Forall (observation poll) rounds.
Proof.
  induction 1; [constructor|].
  do 3 (constructor; [unfold observation; auto|]). done.
Qed.

(** One iteration of the polling loop, call by call. *)
Lemma wait_loop_S pg fuel start prev tmo poll s :
  wait_loop pg (S fuel) start prev tmo poll s =
  if in_time (pg_clock pg (log s)) start tmo then
    if (prev <? observed pg (Now :: log s))%nat
    then (logged Count (logged Now s), Ok true)
    else
      match pg_wait_for_timeout pg (Count :: Now :: log s) poll with
      | Ret _ =>
          wait_loop pg fuel start prev tmo poll
            (logged (WaitTimeout poll) (logged Count (logged Now s)))
      | Raise =>
          (logged (WaitTimeout poll) (logged Count (logged Now s)), Exc)
      end
  else (logged Now s, Ok false).
Proof.
  simpl. unfold bind at 1, time_time at 1, perform. simpl.
  destruct (in_time _ _ _); [|done].
  unfold bind at 1. rewrite products_count_eq. simpl.
  destruct (_ <? _)%nat; [done|].
  unfold bind at 1, wait_for_timeout at 1, perform. simpl.
  by destruct (pg_wait_for_timeout _ _ _).
Qed.

(** The trace of the polling loop, by outcome. *)
Lemma wait_loop_trace pg prev tmo poll start base : ∀ fuel rounds s s' r,
  log s = rounds ++ base →
  stalled pg prev tmo poll start base rounds →
  wait_loop pg fuel start prev tmo poll s = (s', r) →
  products s' = products s ∧ seen_urls s' = seen_urls s
  ∧ ∃ rounds', stalled pg prev tmo poll start base rounds' ∧
      match r with
      | Ok true =>
          log s' = Count :: Now :: rounds' ++ base
          ∧ in_time (pg_clock pg (rounds' ++ base)) start tmo = true
          ∧ (prev < observed pg (Now :: rounds' ++ base))%nat
      | Ok false =>
          log s' = Now :: rounds' ++ base
          ∧ in_time (pg_clock pg (rounds' ++ base)) start tmo = false
      | Exc =>
          log s' = WaitTimeout poll :: Count :: Now :: rounds' ++ base
          ∧ pg_wait_for_timeout pg (Count :: Now :: rounds' ++ base) poll = Raise
      | OutOfFuel => log s' = rounds' ++ base
      end.
Proof.
  induction fuel as [|fuel IH]; intros rounds s s' r Hlog Hst Hrun.
  - simpl in Hrun. injection Hrun as <- <-.
    split; [done|]. split; [done|]. by exists rounds.
  - rewrite wait_loop_S, Hlog in Hrun.
    destruct (in_time _ _ _) eqn:Hin.
    + destruct (_ <? _)%nat eqn:Hlt.
      * injection Hrun as <- <-. split; [done|]. split; [done|].
        exists rounds. simpl. rewrite Hlog.
        repeat split; try done. by apply Nat.ltb_lt.
      * apply Nat.ltb_ge in Hlt.
        destruct (pg_wait_for_timeout _ _ _) as [[]|] eqn:Hw.
        -- apply (IH (WaitTimeout poll :: Count :: Now :: rounds)) in Hrun
             as (Hp & Hs & rounds' & Hst' & Hr).
           ++ split; [done|]. split; [done|]. by exists rounds'.
           ++ simpl. by rewrite Hlog.
           ++ by constructor.
        -- injection Hrun as <- <-. split; [done|]. split; [done|].
           exists rounds. simpl. by rewrite Hlog.
    + injection Hrun as <- <-. split; [done|]. split; [done|].
      exists rounds. simpl. by rewrite Hlog.
Qed.

Lemma in_time_true now start tmo :
  in_time now start tmo = true ↔ ((now - start) * 1000 < inject_Z tmo)%Q.
Proof.
  unfold in_time. rewrite negb_true_iff, <- not_true_iff_false, Qle_bool_iff.
  split; [apply Qnot_le_lt | apply Qlt_not_le].
Qed.

(** On such a clock the polling loop leaves through its test or its
    [return] within [timeout_ms / poll_ms] rounds. *)
Lemma wait_loop_returns pg prev tmo poll start :
  clock_ok pg → 0 < poll → ∀ f s,
  (inject_Z tmo - (pg_clock pg (log s) - start) * 1000
   <= inject_Z (Z.of_nat f) * inject_Z poll)%Q →
  (wait_loop pg (S f) start prev tmo poll s).2 ≠ OutOfFuel.
Proof.
  intros [Hmono Hwait] Hpoll. induction f as [|f IH]; intros s Hrem.
  - rewrite wait_loop_S. destruct (in_time _ _ _) eqn:Hin; [|done].
    apply in_time_true in Hin.
    change (inject_Z (Z.of_nat 0)) with 0%Q in Hrem. exfalso. lra.
  - rewrite wait_loop_S. destruct (in_time _ _ _) eqn:Hin; [|done].
    destruct (_ <? _)%nat; [done|].
    destruct (pg_wait_for_timeout _ _ _) as [u|] eqn:Hw; [|done].
    apply IH. simpl.
    pose proof (Hwait _ _ _ Hw) as H3.
    pose proof (Hmono (Now :: log s) Count) as H2.
    pose proof (Hmono (log s) Now) as H1.
    rewrite Nat2Z.inj_succ in Hrem. unfold Z.succ in Hrem.
    rewrite inject_Z_plus in Hrem.
    change (inject_Z 1) with 1%Q in Hrem. lra.
Qed.

Lemma wait_for_increase_eq pg fuel prev tmo poll s :
  wait_for_increase pg fuel prev tmo poll s =
  wait_loop pg fuel (pg_clock pg (log s)) prev tmo poll (logged Now s).
Proof. done. Qed.

Lemma wait_for_increase_returns pg fuel prev tmo poll s :
  clock_ok pg → 0 < poll → 0 ≤ tmo → tmo + poll ≤ Z.of_nat fuel * poll →
  (wait_for_increase pg fuel prev tmo poll s).2 ≠ OutOfFuel.
Proof.
  intros Hc Hpoll Htmo Hfuel. rewrite wait_for_increase_eq.
  destruct fuel as [|f]; [simpl in Hfuel; lia|].
  apply wait_loop_returns; [done..|]. simpl.
  pose proof (clock_mono pg Hc (log s) Now) as Hm.
  assert (inject_Z tmo <= inject_Z (Z.of_nat f) * inject_Z poll)%Q as Hle.
  { rewrite <- inject_Z_mult, <- Zle_Qle. lia. }
  lra.
Qed.


(** ** Stepping through programs *)

Lemma bind_perform {A B} (c : Call) (answer : History → res A) (f : A → M B) s :
  bind (perform c answer) f s =
  match answer (log s) with
  | Ret a => f a (logged c s)
  | Raise => (logged c s, Exc)
  end.
Proof. unfold bind, perform. by destruct (answer (log s)). Qed.

Lemma bind_products_count {B} pg (f : nat → M B) s :
  bind (products_count pg) f s = f (observed pg (log s)) (logged Count s).
Proof. unfold bind. by rewrite products_count_eq. Qed.

(** ** The three strategies, call by call *)

Lemma control_call_mono sel sels c :
  control_call sels c → control_call (sel :: sels) c.
Proof. intros (x & Hx & Hc). exists x. split; [by right|done]. Qed.

Lemma click_first_spec pg sels : ∀ s s' r,
  click_first pg sels s = (s', r) →
  products s' = products s ∧ seen_urls s' = seen_urls s ∧ r ≠ OutOfFuel
  ∧ ∃ new, log s' = new ++ log s ∧ Forall (control_call sels) new
      ∧ (∀ sel rest, sels = sel :: rest → QuerySelector sel ∈ new).
Proof.
  induction sels as [|sel sels IH]; intros s s' r Hrun.
  - injection Hrun as <- <-. repeat split; try done.
    exists []. repeat split; [constructor|]. discriminate.
  - assert (∀ c, (c = QuerySelector sel ∨ c = IsEnabled sel
                  ∨ c = IsVisible sel ∨ c = Click sel) →
                 control_call (sel :: sels) c) as Hown.
    { intros c Hc. exists sel. split; [left|done]. }
    assert (∀ pre s0, Forall (control_call (sel :: sels)) pre →
              QuerySelector sel ∈ pre → log s0 = pre ++ log s →
              products s0 = products s → seen_urls s0 = seen_urls s →
              click_first pg sels s0 = (s', r) →
              products s' = products s ∧ seen_urls s' = seen_urls s
              ∧ r ≠ OutOfFuel
              ∧ ∃ new, log s' = new ++ log s
                  ∧ Forall (control_call (sel :: sels)) new
                  ∧ (∀ sel0 rest, sel :: sels = sel0 :: rest →
                       QuerySelector sel0 ∈ new)) as Hrest.
    { intros pre s0 Hpre Hq Hlog Hp Hs Hrun0.
      apply IH in Hrun0 as (Hp' & Hs' & Hr & new & Hlog' & Hnew & _).
      split; [congruence|]. split; [congruence|]. split; [done|].
      exists (new ++ pre). split; [by rewrite Hlog', Hlog, app_assoc|].
      split.
      - apply Forall_app. split; [|done].
        eapply Forall_impl; [done|]. apply control_call_mono.
      - intros ? ? [= <- <-]. apply elem_of_app. by right. }
    assert (∀ pre s0 (out : outcome bool), out ≠ OutOfFuel →
              Forall (control_call (sel :: sels)) pre →
              QuerySelector sel ∈ pre → log s0 = pre ++ log s →
              products s0 = products s → seen_urls s0 = seen_urls s →
              (s0, out) = (s', r) →
              products s' = products s ∧ seen_urls s' = seen_urls s
              ∧ r ≠ OutOfFuel
              ∧ ∃ new, log s' = new ++ log s
                  ∧ Forall (control_call (sel :: sels)) new
                  ∧ (∀ sel0 rest, sel :: sels = sel0 :: rest →
                       QuerySelector sel0 ∈ new)) as Hstop.
    { intros pre s0 out Hout Hpre Hq Hlog Hp Hs [= <- <-].
      repeat split; try done. exists pre. repeat split; try done.
      by intros ? ? [= <- <-]. }
    simpl in Hrun. unfold query_selector, is_enabled, is_visible, click in Hrun.
    rewrite bind_perform in Hrun.
    destruct (pg_query_selector pg (log s) sel) as [[]|].
    + rewrite bind_perform in Hrun. simpl in Hrun.
      destruct (pg_is_enabled pg _ sel) as [[]|].
      * rewrite bind_perform in Hrun. simpl in Hrun.
        destruct (pg_is_visible pg _ sel) as [[]|].
        -- rewrite bind_perform in Hrun. simpl in Hrun.
           destruct (pg_click pg _ sel) as [[]|];
             (eapply (Hstop [Click sel; IsVisible sel; IsEnabled sel;
                             QuerySelector sel]); [| | | | | |exact Hrun];
              [done|repeat constructor; apply Hown; auto|apply list_elem_of_In; simpl; tauto|done..]).
        -- eapply (Hrest [IsVisible sel; IsEnabled sel; QuerySelector sel]);
             [| | | | |exact Hrun];
             [repeat constructor; apply Hown; auto|apply list_elem_of_In; simpl; tauto|done..].
        -- eapply (Hstop [IsVisible sel; IsEnabled sel; QuerySelector sel]);
             [| | | | | |exact Hrun];
             [done|repeat constructor; apply Hown; auto|apply list_elem_of_In; simpl; tauto|done..].
      * eapply (Hrest [IsEnabled sel; QuerySelector sel]);
          [| | | | |exact Hrun];
          [repeat constructor; apply Hown; auto|apply list_elem_of_In; simpl; tauto|done..].
      * eapply (Hstop [IsEnabled sel; QuerySelector sel]);
          [| | | | | |exact Hrun];
          [done|repeat constructor; apply Hown; auto|apply list_elem_of_In; simpl; tauto|done..].
    + eapply (Hrest [QuerySelector sel]); [| | | | |exact Hrun];
        [repeat constructor; apply Hown; auto|apply list_elem_of_In; simpl; tauto|done..].
    + eapply (Hstop [QuerySelector sel]); [| | | | | |exact Hrun];
        [done|repeat constructor; apply Hown; auto|apply list_elem_of_In; simpl; tauto|done..].
Qed.

Lemma extract_page_products_eq pg src start_index s :
  extract_page_products pg src start_index s =
  match pg_query_selector_all pg (log s) with
  | Ret els => (pass_effect src start_index els (logged QuerySelectorAll s), Ok tt)
  | Raise => (logged QuerySelectorAll s, Exc)
  end.
Proof.
  destruct src; simpl;
    unfold extract_page_products_original, extract_page_products_optimized,
      query_selector_all; rewrite bind_perform;
    by destruct (pg_query_selector_all pg (log s)).
Qed.

Lemma record_original_log s el : log (record_original s el) = log s.
Proof.
  destruct el as [p|]; simpl; [|done]. by destruct (existsb _ _).
Qed.

Lemma record_optimized_log s el : log (record_optimized s el) = log s.
Proof.
  destruct el as [p|]; simpl; [|done].
  destruct (url p); [|done]. by destruct (_ && _).
Qed.

Lemma pass_effect_log src start_index els s :
  log (pass_effect src start_index els s) = log s.
Proof.
  destruct src; simpl.
  - revert s. induction els as [|el els IH]; intros s; simpl; [done|].
    by rewrite IH, record_original_log.
  - generalize (drop start_index els). intros l. revert s.
    induction l as [|el l IH]; intros s; simpl; [done|].
    by rewrite IH, record_optimized_log.
Qed.

Lemma strategy_load_more_eq pg src fuel prev s :
  strategy_load_more pg src fuel prev s =
  click_strategy pg src fuel load_more_selectors (ret tt) prev s.
Proof. reflexivity. Qed.

Lemma strategy_next_page_eq pg src fuel prev s :
  strategy_next_page pg src fuel prev s =
  click_strategy pg src fuel next_selectors
    (try_except (wait_for_load_state pg) (ret tt)) prev s.
Proof. reflexivity. Qed.

(** A pass reads and writes the collected records only. *)
Lemma pass_effect_ext src start_index els sa sb :
  products sa = products sb → seen_urls sa = seen_urls sb →
  products (pass_effect src start_index els sa)
  = products (pass_effect src start_index els sb)
  ∧ seen_urls (pass_effect src start_index els sa)
    = seen_urls (pass_effect src start_index els sb).
Proof.
  intros Hp12 Hs12.
  assert (∀ l s1 s2, products s1 = products s2 → seen_urls s1 = seen_urls s2 →
    products (foldl record_original s1 l) = products (foldl record_original s2 l)
    ∧ seen_urls (foldl record_original s1 l)
      = seen_urls (foldl record_original s2 l)) as Horig.
  { induction l as [|el l IH]; intros s1 s2 Hp Hs; simpl; [done|].
    apply IH; destruct el as [p|]; simpl; try done;
      rewrite Hp; destruct (existsb _ _); simpl; congruence. }
  assert (∀ l s1 s2, products s1 = products s2 → seen_urls s1 = seen_urls s2 →
    products (foldl record_optimized s1 l) = products (foldl record_optimized s2 l)
    ∧ seen_urls (foldl record_optimized s1 l)
      = seen_urls (foldl record_optimized s2 l)) as Hopt.
  { induction l as [|el l IH]; intros s1 s2 Hp Hs; simpl; [done|].
    apply IH; destruct el as [p|]; simpl; try done;
      destruct (url p); try done; rewrite Hs;
      destruct (_ && _); simpl; congruence. }
  destruct src; simpl; [apply Horig|apply Hopt]; done.
Qed.

Lemma wait_for_increase_trace pg fuel prev tmo poll s s' r :
  wait_for_increase pg fuel prev tmo poll s = (s', r) →
  products s' = products s ∧ seen_urls s' = seen_urls s
  ∧ ∃ new, log s' = new ++ log s ∧ Forall (observation poll) new
      ∧ (r = Ok true → ∃ pre, new = Count :: pre
           ∧ (prev < observed pg (pre ++ log s))%nat).
Proof.
  intros Hrun. rewrite wait_for_increase_eq in Hrun.
  apply (wait_loop_trace pg prev tmo poll _ (Now :: log s) _ [])
    in Hrun as (Hp & Hs & rounds & Hst & Hshape); [|done|constructor].
  split; [done|]. split; [done|].
  pose proof (stalled_observation _ _ _ _ _ _ _ Hst) as Hobs.
  assert (Forall (observation poll) (rounds ++ [Now])) as Hall.
  { apply Forall_app. split; [done|].
    constructor; [unfold observation; auto|constructor]. }
  destruct r as [[]| |]; simpl in Hshape.
  - destruct Hshape as (-> & _ & Hlt).
    exists (Count :: Now :: rounds ++ [Now]).
    split; [by rewrite <- !app_comm_cons, <- app_assoc|]. split.
    + do 2 (constructor; [unfold observation; auto|]). done.
    + intros _. exists (Now :: rounds ++ [Now]). split; [done|].
      by rewrite <- app_comm_cons, <- app_assoc.
  - destruct Hshape as (-> & _). exists (Now :: rounds ++ [Now]).
    split; [by rewrite <- !app_comm_cons, <- app_assoc|]. split; [|done].
    constructor; [unfold observation; auto|]. done.
  - destruct Hshape as (-> & _).
    exists (WaitTimeout poll :: Count :: Now :: rounds ++ [Now]).
    split; [by rewrite <- !app_comm_cons, <- app_assoc|]. split; [|done].
    do 3 (constructor; [unfold observation; auto|]). done.
  - rewrite Hshape. exists (rounds ++ [Now]).
    split; [by rewrite <- app_assoc|]. done.
Qed.

Section ClickStrategy.

Variables (pg : Page) (src : source_file) (fuel : nat).
Variables (sels : list string) (settle : M unit) (prev : nat).
Variable P : Call → Prop.

Hypothesis P_control : ∀ c, control_call sels c → P c.
Hypothesis P_observation : ∀ c, observation 300 c → P c.
Hypothesis P_listing : P QuerySelectorAll.
Hypothesis settle_spec : ∀ s s' r, settle s = (s', r) →
  r = Ok tt ∧ products s' = products s ∧ seen_urls s' = seen_urls s
  ∧ ∃ new, log s' = new ++ log s ∧ Forall P new.

Lemma click_strategy_spec s s' r :
  click_strategy pg src fuel sels settle prev s = (s', r) →
  ∃ new, strategy_post pg src prev s new s' r
    ∧ Forall P new
    ∧ (∀ sel rest, sels = sel :: rest → QuerySelector sel ∈ new)
    ∧ (clock_ok pg → (51 ≤ fuel)%nat → r ≠ OutOfFuel).
Proof.
  unfold click_strategy, try_except, bind. intros Hrun.
  destruct (click_first pg sels s) as [s1 r1] eqn:H1.
  apply click_first_spec in H1
    as (Hp1 & Hs1 & Hr1 & n1 & Hl1 & Hn1 & Hfirst).
  assert (Forall P n1) as HP1 by (eapply Forall_impl; eauto).
  assert (∀ n s0, log s0 = n ++ n1 ++ log s → Forall P n →
            products s0 = products s → seen_urls s0 = seen_urls s →
            (s0, Ok false) = (s', r) →
            ∃ new, strategy_post pg src prev s new s' r ∧ Forall P new
              ∧ (∀ sel rest, sels = sel :: rest → QuerySelector sel ∈ new)
              ∧ (clock_ok pg → (51 ≤ fuel)%nat → r ≠ OutOfFuel)) as Hfalse.
  { intros n s0 Hl HP Hp Hs [= <- <-]. exists (n ++ n1).
    split; [|split; [by apply Forall_app|split; [|done]]].
    - split; [done|]. split; [by rewrite <- app_assoc|]. by split.
    - intros sel rest Hsel. apply elem_of_app. right. eauto. }
  destruct r1 as [[]| |]; [| | |done].
  - destruct (settle s1) as [s2 r2] eqn:H2.
    apply settle_spec in H2 as (-> & Hp2 & Hs2 & n2 & Hl2 & Hn2).
    destruct (wait_for_increase pg fuel prev 15000 300 s2) as [s3 r3] eqn:H3.
    pose proof (wait_for_increase_returns pg fuel prev 15000 300 s2) as Hret.
    rewrite H3 in Hret. simpl in Hret.
    apply wait_for_increase_trace in H3
      as (Hp3 & Hs3 & n3 & Hl3 & Hn3 & Hinc).
    assert (Forall P n3) as HP3 by (eapply Forall_impl; eauto).
    assert (log s3 = (n3 ++ n2) ++ n1 ++ log s) as Hl
      by (by rewrite Hl3, Hl2, Hl1, <- app_assoc).
    assert (Forall P (n3 ++ n2)) as HP32 by (by apply Forall_app).
    destruct r3 as [[]| |].
    + rewrite extract_page_products_eq in Hrun.
      destruct (pg_query_selector_all pg (log s3)) as [els|] eqn:Hq.
      * unfold ret in Hrun. injection Hrun as <- <-.
        exists (QuerySelectorAll :: (n3 ++ n2) ++ n1).
        split; [|split; [|split; [|done]]].
        -- split; [done|]. split.
           { rewrite pass_effect_log. simpl. rewrite Hl.
             by rewrite <- !app_assoc. }
           split; [done|]. intros _. split.
           ++ destruct (Hinc eq_refl) as (pre & -> & Hlt).
              exists [QuerySelectorAll], (pre ++ n2 ++ n1).
              split; [by rewrite <- !app_assoc|].
              by rewrite <- !app_assoc, <- Hl1, <- Hl2.
           ++ exists prev, ((n3 ++ n2) ++ n1), els.
              split; [done|]. split; [by rewrite <- app_assoc, <- Hl|].
              apply pass_effect_ext; simpl; congruence.
        -- constructor; [done|]. by apply Forall_app.
        -- intros sel rest Hsel. right. apply elem_of_app. right. eauto.
      * apply (Hfalse (QuerySelectorAll :: n3 ++ n2)
                 (logged QuerySelectorAll s3)); simpl;
          [by rewrite Hl|by constructor|congruence..|done].
    + apply (Hfalse (n3 ++ n2) s3);
        [done|done|congruence..|done].
    + apply (Hfalse (n3 ++ n2) s3);
        [done|done|congruence..|done].
    + injection Hrun as <- <-. exists ((n3 ++ n2) ++ n1).
      split; [|split; [by apply Forall_app|split]].
      * split; [done|]. split; [by rewrite <- app_assoc|]. by split.
      * intros sel rest Hsel. apply elem_of_app. right. eauto.
      * intros Hc Hf. exfalso. apply Hret; [done|lia|lia|lia|done].
  - apply (Hfalse [] s1); [done|constructor|done..].
  - apply (Hfalse [] s1); [done|constructor|done..].
Qed.

End ClickStrategy.

Lemma scroll_steps_app n1 n2 :
  scroll_steps (n1 ++ n2) = (scroll_steps n1 + scroll_steps n2)%nat.
Proof. unfold scroll_steps. by rewrite filter_app, length_app. Qed.

Lemma scroll_loop_spec pg : ∀ steps increased prev s s' r,
  scroll_loop pg steps increased prev s = (s', r) →
  products s' = products s ∧ seen_urls s' = seen_urls s ∧ r ≠ OutOfFuel
  ∧ ∃ new, log s' = new ++ log s ∧ Forall scroll_call new
      ∧ (scroll_steps new ≤ steps)%nat
      ∧ (∀ n, steps = S n → ScrollBottom ∈ new)
      ∧ (∀ prev', r = Ok (true, prev') →
           increased = true
           ∨ ∃ post pre, new = post ++ Count :: pre
               ∧ (prev < observed pg (pre ++ log s))%nat).
Proof.
  induction steps as [|steps IH]; intros increased prev s s' r Hrun.
  - injection Hrun as <- <-. split_and!; try done.
    exists []. split_and!; try done; try (by constructor).
    intros prev' [= -> _]. by left.
  - simpl in Hrun. unfold scroll_to_bottom, wait_for_timeout in Hrun.
    rewrite bind_perform in Hrun.
    destruct (pg_scroll pg (log s)) as [[]|].
    2:{ injection Hrun as <- <-. split_and!; try done.
        exists [ScrollBottom]. split_and!; try done.
        - calls_ok.
        - unfold scroll_steps. rewrite filter_cons_True by done. simpl. lia.
        - intros. left. }
    rewrite bind_perform in Hrun. simpl in Hrun.
    destruct (pg_wait_for_timeout pg _ 700) as [[]|].
    2:{ injection Hrun as <- <-. split_and!; try done.
        exists [WaitTimeout 700; ScrollBottom]. split_and!; try done.
        - calls_ok.
        - unfold scroll_steps. rewrite filter_cons_False by done.
          rewrite filter_cons_True by done. simpl. lia.
        - intros. right. left. }
    rewrite bind_products_count in Hrun. simpl in Hrun.
    destruct (prev <? _)%nat eqn:Hlt.
    + rewrite bind_products_count in Hrun. simpl in Hrun.
      apply IH in Hrun as (Hp & Hs & Hr & new & Hl & Hn & Hc & _ & _).
      split; [done|]. split; [done|]. split; [done|].
      exists (new ++ [Count; Count; WaitTimeout 700; ScrollBottom]).
      split; [by rewrite Hl, <- app_assoc|]. split; [|split; [|split]].
      * apply Forall_app. split; [done|]. calls_ok.
      * rewrite scroll_steps_app. unfold scroll_steps at 2.
        rewrite !filter_cons_False by done.
        rewrite filter_cons_True by done. simpl. lia.
      * intros n _. apply elem_of_app. right.
        apply list_elem_of_In. simpl. tauto.
      * intros prev' _. right.
        exists (new ++ [Count]), [WaitTimeout 700; ScrollBottom].
        split; [by rewrite <- app_assoc|]. by apply Nat.ltb_lt.
    + injection Hrun as <- <-. split_and!; try done.
      exists [Count; WaitTimeout 700; ScrollBottom]. split_and!; try done.
      * calls_ok.
      * unfold scroll_steps. rewrite !filter_cons_False by done.
        rewrite filter_cons_True by done. simpl. lia.
      * intros. apply list_elem_of_In. simpl. tauto.
      * intros prev' [= -> _]. by left.
Qed.

Lemma selectors_disjoint :
  Forall (λ sel, sel ∉ load_more_selectors) next_selectors.
Proof. apply (bool_decide_unpack _). by vm_compute. Qed.

Lemma within_control_load_more c :
  control_call load_more_selectors c →
  strategy_of c = None ∨ strategy_of c = Some LoadMore.
Proof.
  intros (sel & Hsel & [-> | [-> | [-> | ->]]]); right; simpl;
    by rewrite bool_decide_eq_true_2.
Qed.

Lemma within_control_next c :
  control_call next_selectors c →
  strategy_of c = None ∨ strategy_of c = Some NextPage.
Proof.
  intros (sel & Hsel & Hc).
  pose proof (proj1 (Forall_forall _ _) selectors_disjoint sel Hsel) as Hno.
  destruct Hc as [-> | [-> | [-> | ->]]]; right; simpl;
    by rewrite bool_decide_eq_false_2, bool_decide_eq_true_2.
Qed.

Lemma within_observation poll st c :
  observation poll c → strategy_of c = None ∨ strategy_of c = Some st.
Proof. intros [-> | [-> | ->]]; by left. Qed.

Lemma within_scroll_call c :
  scroll_call c → strategy_of c = None ∨ strategy_of c = Some Scroll.
Proof. intros [-> | [-> | ->]]; auto. Qed.

Lemma within_no_scroll st new :
  within st new → st ≠ Scroll → scroll_steps new = 0%nat.
Proof.
  intros Hw Hst. unfold scroll_steps. induction Hw as [|c new Hc _ IH]; [done|].
  rewrite filter_cons_False; [done|].
  intros ->. simpl in Hc. destruct Hc as [Hc|Hc]; [discriminate|].
  injection Hc as <-. done.
Qed.

Lemma strategy_scroll_spec pg src prev s s' r :
  strategy_scroll pg src prev s = (s', r) →
  ∃ new, strategy_post pg src prev s new s' r
    ∧ within Scroll new ∧ ScrollBottom ∈ new
    ∧ (scroll_steps new ≤ 10)%nat ∧ r ≠ OutOfFuel.
Proof.
  unfold strategy_scroll, try_except, bind. intros Hrun.
  destruct (scroll_loop pg 10 false prev s) as [s1 r1] eqn:H1.
  apply scroll_loop_spec in H1
    as (Hp1 & Hs1 & Hr1 & n1 & Hl1 & Hn1 & Hc1 & Hfirst & Hinc).
  specialize (Hfirst _ eq_refl).
  assert (within Scroll n1) as Hw1
    by (eapply Forall_impl; [done|apply within_scroll_call]).
  assert (∀ n s0, log s0 = n ++ n1 ++ log s → within Scroll n →
            scroll_steps n = 0%nat →
            products s0 = products s → seen_urls s0 = seen_urls s →
            (s0, Ok false) = (s', r) →
            ∃ new, strategy_post pg src prev s new s' r
              ∧ within Scroll new ∧ ScrollBottom ∈ new
              ∧ (scroll_steps new ≤ 10)%nat ∧ r ≠ OutOfFuel) as Hfalse.
  { intros n s0 Hl Hw Hsc Hp Hs [= <- <-]. exists (n ++ n1).
    split_and!; try done.
    - split_and!; try done. by rewrite <- app_assoc.
    - by apply Forall_app.
    - apply elem_of_app. by right.
    - rewrite scroll_steps_app. lia. }
  destruct r1 as [[increased prev']| |]; [| |done].
  - simpl in Hrun. destruct increased.
    + rewrite extract_page_products_eq in Hrun.
      destruct (pg_query_selector_all pg (log s1)) as [els|] eqn:Hq.
      * unfold ret in Hrun. injection Hrun as <- <-.
        exists (QuerySelectorAll :: n1). split_and!.
        -- split; [done|]. split.
           { rewrite pass_effect_log. simpl. by rewrite Hl1. }
           split; [done|]. intros _. split.
           ++ destruct (Hinc prev' eq_refl) as [?|(post & pre & -> & Hlt)];
                [done|].
              exists (QuerySelectorAll :: post), pre. by split.
           ++ exists prev', n1, els. split; [done|].
              split; [by rewrite <- Hl1|].
              apply pass_effect_ext; simpl; congruence.
        -- constructor; [by left|done].
        -- by right.
        -- unfold scroll_steps. rewrite filter_cons_False by done.
           apply Hc1.
        -- done.
      * apply (Hfalse [QuerySelectorAll] (logged QuerySelectorAll s1)); simpl;
          [by rewrite Hl1|repeat constructor|done|congruence..|done].
    + apply (Hfalse [] s1); [done|constructor|done..].
  - apply (Hfalse [] s1); [done|constructor|done..].
Qed.

Lemma strategy_post_true pg src prev s0 s new s' mid :
  strategy_post pg src prev s0 new s' (Ok true) →
  log s0 = mid ++ Count :: log s → prev = observed pg (log s) →
  products s0 = products s → seen_urls s0 = seen_urls s →
  (∃ post pre, log s' = post ++ Count :: pre ++ Count :: log s
     ∧ (observed pg (log s) < observed pg (pre ++ Count :: log s))%nat)
  ∧ ∃ start_index h els,
      log s' = QuerySelectorAll :: h
      ∧ pg_query_selector_all pg h = Ret els
      ∧ products s' = products (pass_effect src start_index els s)
      ∧ seen_urls s' = seen_urls (pass_effect src start_index els s).
Proof.
  intros (_ & Hl & _ & Htrue) Hl0 -> Hp Hs.
  destruct (Htrue eq_refl)
    as ((post & pre & -> & Hlt) & start & rest & els & Hnew & Hq & Hp' & Hs').
  split.
  - exists post, (pre ++ mid). split.
    + by rewrite Hl, Hl0, <- !app_assoc.
    + by rewrite <- app_assoc, <- Hl0.
  - exists start, (rest ++ log s0), els. split; [by rewrite Hl, Hnew|].
    split; [done|].
    destruct (pass_effect_ext src start els s0 s Hp Hs) as [<- <-]. done.
Qed.

Lemma attempt_spec pg src fuel s s' r :
  attempt pg src fuel s = (s', r) → attempt_post pg src fuel s s' r.
Proof.
  unfold attempt. rewrite bind_products_count. unfold bind.
  set (prev := observed pg (log s)). set (s0 := logged Count s).
  intros Hrun.
  destruct (strategy_load_more pg src fuel prev s0) as [s1 r1] eqn:H1.
  rewrite strategy_load_more_eq in H1.
  apply (click_strategy_spec _ _ _ _ _ _
           (λ c, strategy_of c = None ∨ strategy_of c = Some LoadMore))
    in H1 as (n1 & Hpost1 & Hw1 & Hq1 & Hret1);
    [|apply within_control_load_more|apply within_observation|by left|].
  2:{ intros sa sb rb Heq. unfold ret in Heq. injection Heq as <- <-.
      split_and!; try done. exists []. split; [done|constructor]. }
  pose proof Hpost1 as (Hexc1 & Hl1 & Hf1 & _).
  pose proof (within_no_scroll _ _ Hw1 ltac:(done)) as Hsc1.
  destruct r1 as [[]| |]; [| |done|].
  - (* continue after load more *)
    unfold ret in Hrun. injection Hrun as <- <-.
    split; [done|]. split; [done|]. exists n1, [], [].
    split_and!; try done; try (by constructor).
    + simpl. lia.
    + intros _. eapply (strategy_post_true _ _ _ s0 s _ _ []); eauto.
  - destruct (Hf1 eq_refl) as [Hp1 Hs1].
    destruct (strategy_next_page pg src fuel prev s1) as [s2 r2] eqn:H2.
    rewrite strategy_next_page_eq in H2.
    apply (click_strategy_spec _ _ _ _ _ _
             (λ c, strategy_of c = None ∨ strategy_of c = Some NextPage))
      in H2 as (n2 & Hpost2 & Hw2 & Hq2 & Hret2);
      [|apply within_control_next|apply within_observation|by left|].
    2:{ intros sa sb rb. unfold try_except, wait_for_load_state, perform, ret.
        destruct (pg_wait_for_load_state pg (log sa)) as [[]|];
          intros Heq; injection Heq as <- <-;
          (split_and!; try done; exists [WaitLoadState];
           split; [done|]; constructor; [by right|constructor]). }
    pose proof Hpost2 as (Hexc2 & Hl2 & Hf2 & _).
    pose proof (within_no_scroll _ _ Hw2 ltac:(done)) as Hsc2.
    destruct r2 as [[]| |]; [| |done|].
    + unfold ret in Hrun. injection Hrun as <- <-.
      split; [done|]. split; [done|]. exists n1, n2, [].
      split_and!; try done; try (by constructor).
      * by rewrite Hl2, Hl1.
      * simpl. rewrite scroll_steps_app. lia.
      * intros _.
        eapply (strategy_post_true _ _ _ s1 s _ _ n1); eauto; simpl in *;
          congruence.
    + destruct (Hf2 eq_refl) as [Hp2 Hs2].
      apply strategy_scroll_spec in Hrun
        as (n3 & Hpost3 & Hw3 & Hq3 & Hsc3 & Hret3).
      pose proof Hpost3 as (Hexc3 & Hl3 & Hf3 & _).
      split; [done|]. split; [done|]. exists n1, n2, n3.
      split_and!; try done.
      * by rewrite Hl3, Hl2, Hl1.
      * rewrite !scroll_steps_app. lia.
      * intros ->. destruct (Hf3 eq_refl) as [Hp3 Hs3].
        split_and!; try done; simpl in *; try congruence.
        -- intros sel Hsel. apply (Hq1 sel (tail load_more_selectors)).
           revert Hsel. by intros [= <-].
        -- intros sel Hsel. apply (Hq2 sel (tail next_selectors)).
           revert Hsel. by intros [= <-].
      * intros ->.
        eapply (strategy_post_true _ _ _ s2 s _ _ (n2 ++ n1)); eauto;
          simpl in *; try congruence.
        by rewrite Hl2, Hl1, <- app_assoc.
    + injection Hrun as <- <-.
      split; [done|]. split; [done|]. exists n1, n2, [].
      split_and!; try done; try (by constructor).
      * by rewrite Hl2, Hl1.
      * simpl. rewrite scroll_steps_app. lia.
  - injection Hrun as <- <-.
    split; [done|]. split; [done|]. exists n1, [], [].
    split_and!; try done; try (by constructor).
    simpl. lia.
Qed.

(** ** The attempt loop *)

Lemma attempt_loop_spec pg src fuel max_attempts : ∀ n attempts s s' r,
  attempt_loop pg src fuel n attempts max_attempts s = (s', r) →
  r ≠ Exc
  ∧ (clock_ok pg → (51 ≤ fuel)%nat →
     (Z.to_nat (max_attempts - attempts) < n)%nat → r ≠ OutOfFuel)
  ∧ (∀ k, r = Ok k → loop_post pg src fuel attempts max_attempts s s' k).
Proof.
  induction n as [|n IH]; intros attempts s s' r Hrun.
  - injection Hrun as <- <-. split; [done|]. split; [lia|done].
  - simpl in Hrun. destruct (attempts <? max_attempts) eqn:Hlt.
    + apply Z.ltb_lt in Hlt. unfold bind in Hrun.
      destruct (attempt pg src fuel s) as [s1 r1] eqn:H1.
      pose proof (attempt_spec _ _ _ _ _ _ H1)
        as (Hexc & Hret & n1 & n2 & n3 & Hl & _ & _ & _ & Hsc & _).
      destruct r1 as [[]| |]; [| |done|].
      * apply IH in Hrun as (Hexc' & Hret' & Hk).
        split; [done|]. split; [intros; apply Hret'; try done; lia|].
        intros k ->. destruct (Hk k eq_refl) as (Hle & Hbreak & new & Hl' & Hsc').
        split; [lia|]. split.
        -- intros Hkm. destruct (Hbreak Hkm) as [? ?]. split; [lia|done].
        -- exists (new ++ (n3 ++ n2 ++ n1) ++ [Count]). split.
           ++ rewrite Hl', Hl. by rewrite <- !app_assoc.
           ++ rewrite !scroll_steps_app in *. unfold scroll_steps at 5.
              rewrite filter_cons_False by done. simpl. lia.
      * injection Hrun as <- <-. split; [done|]. split; [done|].
        intros k [= <-]. split; [lia|]. split.
        -- intros _. split; [lia|]. by exists s.
        -- exists ((n3 ++ n2 ++ n1) ++ [Count]). split.
           ++ rewrite Hl. by rewrite <- !app_assoc.
           ++ rewrite !scroll_steps_app in *. unfold scroll_steps at 4.
              rewrite filter_cons_False by done. simpl. lia.
      * injection Hrun as <- <-. split; [done|]. split; [|done].
        intros Hc Hf _. by destruct (Hret Hc Hf).
    + apply Z.ltb_ge in Hlt. injection Hrun as <- <-.
      split; [done|]. split; [done|]. intros k [= <-].
      split; [lia|]. split; [lia|]. exists []. split; [done|].
      unfold scroll_steps. simpl. lia.
Qed.

(** [extract_all_products] raises exactly when the listing of the first
    pass raises; whatever else raises is absorbed. *)
Lemma extract_all_products_spec pg src fuel max_attempts s s' r :
  extract_all_products pg src fuel max_attempts s = (s', r) →
  (r = Exc ↔ pg_query_selector_all pg (log s) = Raise)
  ∧ (clock_ok pg → (51 ≤ fuel)%nat → r ≠ OutOfFuel)
  ∧ (∀ k, r = Ok k →
       0 ≤ k ≤ Z.max 0 max_attempts
       ∧ (k < max_attempts → 0 < k
          ∧ ∃ s0, attempt pg src fuel s0 = (s', Ok false))
       ∧ ∃ new, log s' = new ++ log s
           ∧ (scroll_steps new ≤ 10 * Z.to_nat k)%nat).
Proof.
  unfold extract_all_products, bind. rewrite extract_page_products_eq.
  destruct (pg_query_selector_all pg (log s)) as [els|] eqn:Hq.
  - intros Hrun. apply attempt_loop_spec in Hrun as (Hexc & Hret & Hk).
    split; [split; done|]. split; [intros; apply Hret; try done; lia|].
    intros k ->. destruct (Hk k eq_refl) as (Hle & Hbreak & new & Hl & Hsc).
    split; [lia|]. split; [done|].
    exists (new ++ [QuerySelectorAll]). split.
    + rewrite Hl, pass_effect_log. simpl. by rewrite <- app_assoc.
    + rewrite scroll_steps_app. unfold scroll_steps at 2.
      rewrite filter_cons_False by done. simpl.
      replace (k - 0) with k in Hsc by lia. lia.
  - intros [= <- <-]. split; [done|]. split; [done|]. done.
Qed.

(** ** Simulated surfaces *)

Lemma surface_clock_ok items control : clock_ok (surface items control).
Proof.
  split; simpl; unfold sim_clock.
  - intros h c.
    assert (waited h ≤ waited (c :: h)) as Hle by (destruct c; simpl; lia).
    rewrite Zle_Qle in Hle. lra.
  - intros h ms _ _.
    assert (waited h + ms ≤ waited (WaitTimeout ms :: h)) as Hle
      by (simpl; lia).
    rewrite Zle_Qle in Hle. rewrite inject_Z_plus in Hle. lra.
Qed.

(** ** The claims on the traversal *)

(** C3. On a clock that advances with the waits, and with the polling bound
    of the model at least the 51 rounds that 15000 ms of 300 ms polls can
    take, [extract_all_products] ends (with a value, or with the exception
    of its first listing): the loop runs at most [max_load_attempts] times,
    one attempt makes at most 10 scroll steps, and the whole traversal at
    most 10 per attempt. *)
Theorem extract_all_products_terminates pg src fuel max_attempts s :
  clock_ok pg → (51 ≤ fuel)%nat →
  (extract_all_products pg src fuel max_attempts s).2 ≠ OutOfFuel
  ∧ (∀ k, (extract_all_products pg src fuel max_attempts s).2 = Ok k →
       0 ≤ k ≤ Z.max 0 max_attempts
       ∧ ∃ new,
           log (extract_all_products pg src fuel max_attempts s).1
           = new ++ log s
           ∧ (scroll_steps new ≤ 10 * Z.to_nat k)%nat)
  ∧ (∀ s0, (attempt pg src fuel s0).2 ≠ OutOfFuel
       ∧ ∃ new, log (attempt pg src fuel s0).1 = new ++ log s0
           ∧ (scroll_steps new ≤ 10)%nat).
Proof.
  intros Hc Hf.
  destruct (extract_all_products pg src fuel max_attempts s) as [s' r] eqn:Hrun.
  apply extract_all_products_spec in Hrun as (_ & Hret & Hk). simpl.
  split; [by apply Hret|]. split.
  - intros k ->. destruct (Hk k eq_refl) as (Hle & _ & Hnew). by split.
  - intros s0. destruct (attempt pg src fuel s0) as [s1 r1] eqn:H1.
    apply attempt_spec in H1
      as (_ & Hret1 & n1 & n2 & n3 & Hl & _ & _ & _ & Hsc & _). simpl.
    split; [by apply Hret1|].
    exists ((n3 ++ n2 ++ n1) ++ [Count]). split.
    + rewrite Hl. by rewrite <- !app_assoc.
    + rewrite scroll_steps_app. unfold scroll_steps at 2.
      rewrite filter_cons_False by done. simpl. lia.
Qed.

Lemma extract_all_products_terminates_witness :
  (extract_all_products page_cascade MainCli 51 20 initial_state).2 ≠ OutOfFuel
  ∧ (∀ k, (extract_all_products page_cascade MainCli 51 20 initial_state).2
          = Ok k →
       0 ≤ k ≤ Z.max 0 20
       ∧ ∃ new,
           log (extract_all_products page_cascade MainCli 51 20 initial_state).1
           = new ++ log initial_state
           ∧ (scroll_steps new ≤ 10 * Z.to_nat k)%nat)
  ∧ (∀ s0, (attempt page_cascade MainCli 51 s0).2 ≠ OutOfFuel
       ∧ ∃ new, log (attempt page_cascade MainCli 51 s0).1 = new ++ log s0
           ∧ (scroll_steps new ≤ 10)%nat).
Proof.
  apply (extract_all_products_terminates page_cascade MainCli 51 20
           initial_state); [apply surface_clock_ok|lia].
Defined.

(** The traversal of [page_cascade] ends after two attempts. *)
Example page_cascade_two_attempts :
  (extract_all_products page_cascade MainCli 51 20 initial_state).2 = Ok 2
  ∧ url <$> products
      (extract_all_products page_cascade MainCli 51 20 initial_state).1
    = [Some "https://www.carrefour.fr/p/lait-a";
       Some "https://www.carrefour.fr/p/lait-b"].
Proof. by vm_compute. Qed.

(** C6, as stated, fails: on [page_listing_fails] the navigation succeeds
    and no strategy or single record raises, yet the exception of the
    listing of the first pass leaves [extract_page_products],
    [extract_all_products] and [run]. *)
Lemma listing_failure_propagates :
  (open_page page_listing_fails "https://www.carrefour.fr/s?q=lait"
     initial_state).2 = Ok tt
  ∧ (extract_page_products page_listing_fails MainCli 0 initial_state).2 = Exc
  ∧ (extract_all_products page_listing_fails MainCli 51 20 initial_state).2
    = Exc
  ∧ (run_original page_listing_fails 51 20 "https://www.carrefour.fr/s?q=lait"
       initial_state).2 = Exc
  ∧ (run_optimized page_listing_fails 51 20
       "https://www.carrefour.fr/s?q=lait" false initial_state).2 = Exc.
Proof. by vm_compute. Qed.

(** C6, amended. Whatever a strategy's action, a wait, the count, a later
    pass or the building of a single record raises is absorbed: an attempt
    never raises, [extract_page_products] raises exactly when its listing
    of the tiles raises, and [extract_all_products] exactly when the
    listing of its first pass raises.  A navigation that fails leaves
    [run] at once, before any extraction. *)
Theorem soft_errors_absorbed pg src fuel max_attempts start_index location s :
  (attempt pg src fuel s).2 ≠ Exc
  ∧ ((extract_page_products pg src start_index s).2 = Exc
     ↔ pg_query_selector_all pg (log s) = Raise)
  ∧ ((extract_all_products pg src fuel max_attempts s).2 = Exc
     ↔ pg_query_selector_all pg (log s) = Raise)
  ∧ ((open_page pg location s).2 = Exc →
     run_original pg fuel max_attempts location s
     = ((open_page pg location s).1, Exc)
     ∧ ∀ single_page_only,
         run_optimized pg fuel max_attempts location single_page_only s
         = ((open_page pg location s).1, Exc)).
Proof.
  split_and!.
  - destruct (attempt pg src fuel s) as [s' r] eqn:Hrun.
    by apply attempt_spec in Hrun as (Hexc & _).
  - rewrite extract_page_products_eq.
    by destruct (pg_query_selector_all pg (log s)).
  - destruct (extract_all_products pg src fuel max_attempts s)
      as [s' r] eqn:Hrun.
    by apply extract_all_products_spec in Hrun as (Hexc & _).
  - intros Hnav. unfold run_original, run_optimized.
    split; [|intros single_page_only]; unfold bind at 1;
      destruct (open_page pg location s) as [s1 [[]| |]]; done.
Qed.



(** On [page_cascade] the first attempt continues through the next-page
    strategy and the second breaks. *)
Example page_cascade_attempts :
  (strategy_load_more page_cascade MainCli 51 1
     (logged Count cascade_first_pass)).2 = Ok false
  ∧ (attempt page_cascade MainCli 51 cascade_first_pass).2 = Ok true
  ∧ (attempt page_cascade MainCli 51
       (attempt page_cascade MainCli 51 cascade_first_pass).1).2 = Ok false.
Proof. by vm_compute. Qed.

(** ** A single-pass run *)

(** C9. A run with [single_page_only] makes one pass over the tiles shown
    and nothing of the traversal: its calls are those of opening the page,
    of the cookie banner, of the wait for the grid, one listing and the
    closing; none is a call of a loading strategy and none reads the count
    that opens an attempt.  When the run returns, exactly one listing was
    made, all its tiles went through the pass, and no attempt was
    consumed. *)
Theorem single_page_only_one_pass pg fuel max_attempts location s :
  ∃ new,
    log (run_optimized pg fuel max_attempts location true s).1 = new ++ log s
    ∧ Forall (λ c, c ∈ single_pass_calls location
                   ∧ c ≠ Count ∧ strategy_of c = None) new
    ∧ (passes new ≤ 1)%nat
    ∧ (∀ k, (run_optimized pg fuel max_attempts location true s).2 = Ok k →
         k = 0
         ∧ ∃ rest els,
             new = Close :: QuerySelectorAll :: rest
             ∧ passes new = 1%nat
             ∧ pg_query_selector_all pg (rest ++ log s) = Ret els
             ∧ products (run_optimized pg fuel max_attempts location true s).1
               = products (pass_effect MainCliOptimized 0 els s)).
Proof.
  unfold run_optimized, open_page, handle_cookies, wait_for_timeout,
    extract_page_products_optimized, query_selector_all, try_except, bind,
    perform, modify, ret, logged.
  repeat step_page;
    change (foldl record_optimized ?s0 (drop 0 ?l))
      with (pass_effect MainCliOptimized 0 l s0) in *;
    rewrite ?pass_effect_log in *; simpl; give_new;
    (split; [reflexivity|]);
    (split; [repeat (apply Forall_cons_2;
                     [split; [apply list_elem_of_In; simpl; tauto|done]|]);
             apply Forall_nil_2|]);
    (split; [vm_compute; lia|]);
    intros k Hk; try discriminate; injection Hk as <-;
    (split; [reflexivity|]); eexists _, _;
    (split; [reflexivity|]); (split; [reflexivity|]);
    (split; [eassumption|]);
    apply (λ H1 H2, proj1 (pass_effect_ext MainCliOptimized 0 _ _ s H1 H2));
    reflexivity.
Qed.

(** On [page_cascade] the single-pass run issues these calls, in order. *)
Example single_page_only_calls :
  reverse (log (run_optimized page_cascade 51 20
                  "https://www.carrefour.fr/s?q=lait" true initial_state).1)
  = single_pass_calls "https://www.carrefour.fr/s?q=lait"
  ∧ (run_optimized page_cascade 51 20
       "https://www.carrefour.fr/s?q=lait" true initial_state).2 = Ok 0.
Proof. by vm_compute. Qed.

(** ** Records without a product link *)

Lemma record_optimized_identifiable s el :
  Forall (λ p, truthy (url p) = true) (products s) →
  Forall (λ p, truthy (url p) = true) (products (record_optimized s el)).
Proof.
  intros Hall. destruct el as [p|]; simpl; [|done].
  destruct (url p) as [u|] eqn:Hu; [|done].
  destruct (truthy (Some u)) eqn:Ht; simpl; [|done].
  case_bool_decide; simpl; [|done].
  apply Forall_app. split; [done|]. constructor; [|constructor].
  by rewrite Hu.
Qed.

(** [main_cli_optimized.py] never collects a record whose ['url'] is
    [None] or empty. *)
Lemma optimized_pass_identifiable start_index els s :
  Forall (λ p, truthy (url p) = true) (products s) →
  Forall (λ p, truthy (url p) = true)
    (products (pass_effect MainCliOptimized start_index els s)).
Proof.
  simpl. generalize (drop start_index els). intros l. revert s.
  induction l as [|el l IH]; intros s Hall; simpl; [done|].
  by apply IH, record_optimized_identifiable.
Qed.


(** ** The two extractors over the same snapshots *)

Lemma existsb_url k ps :
  existsb (λ q, bool_decide (url q = k)) ps = true ↔ k ∈ url <$> ps.
Proof.
  rewrite existsb_exists, list_elem_of_fmap. split.
  - intros (q & Hq & Heq). apply bool_decide_eq_true in Heq.
    exists q. split; [done|]. by apply list_elem_of_In.
  - intros (q & Heq & Hq). exists q. split; [by apply list_elem_of_In|].
    by apply bool_decide_eq_true.
Qed.

Lemma record_original_products s el :
  ∃ more, products (record_original s el) = products s ++ more.
Proof.
  destruct el as [p|]; simpl; [|by exists []; rewrite app_nil_r].
  destruct (existsb _ _); simpl; [by exists []; rewrite app_nil_r|by eexists].
Qed.

Lemma recorded_mono s s' el :
  (∃ more, products s' = products s ++ more) → recorded s el → recorded s' el.
Proof.
  intros (more & Hmore). destruct el as [p|]; simpl; [|done].
  rewrite Hmore, fmap_app, elem_of_app. auto.
Qed.

Lemma record_original_recorded s el : recorded (record_original s el) el.
Proof.
  destruct el as [p|]; simpl; [|done].
  destruct (existsb _ _) eqn:He; simpl.
  - by apply existsb_url.
  - rewrite fmap_app, elem_of_app. right. simpl. left.
Qed.

Lemma foldl_record_original_products l : ∀ s,
  ∃ more, products (foldl record_original s l) = products s ++ more.
Proof.
  induction l as [|el l IH]; intros s; simpl.
  - exists []. by rewrite app_nil_r.
  - destruct (IH (record_original s el)) as (m2 & ->).
    destruct (record_original_products s el) as (m1 & ->).
    exists (m1 ++ m2). by rewrite app_assoc.
Qed.

(** After a pass of [main_cli.py] every tile it listed is recorded. *)
Lemma foldl_record_original_recorded l : ∀ s,
  Forall (recorded (foldl record_original s l)) l.
Proof.
  induction l as [|el l IH]; intros s; simpl; [constructor|].
  constructor; [|apply IH].
  eapply recorded_mono; [apply foldl_record_original_products|].
  apply record_original_recorded.
Qed.

(** Going again through recorded tiles changes nothing. *)
Lemma foldl_record_original_again l : ∀ s,
  Forall (recorded s) l → foldl record_original s l = s.
Proof.
  induction l as [|el l IH]; intros s Hall; simpl; [done|].
  apply Forall_cons in Hall as [Hel Hall].
  assert (record_original s el = s) as ->; [|by apply IH].
  destruct el as [p|]; simpl in *; [|done].
  apply existsb_url in Hel. by rewrite Hel.
Qed.

(** On appended snapshots [main_cli.py] collects what one pass over all
    the batches collects. *)
Lemma run_passes_original batches : ∀ shown s,
  Forall (recorded s) shown →
  run_passes MainCli (accumulate shown batches) s
  = foldl record_original s (mjoin batches).
Proof.
  induction batches as [|batch rest IH]; intros shown s Hshown; [done|].
  change (run_passes MainCli (accumulate (shown ++ batch) rest)
            (foldl record_original s (shown ++ batch))
          = foldl record_original s (batch ++ mjoin rest)).
  rewrite !foldl_app, (foldl_record_original_again shown) by done.
  apply IH. apply Forall_app. split.
  - eapply Forall_impl; [done|]. intros el.
    apply recorded_mono, foldl_record_original_products.
  - apply foldl_record_original_recorded.
Qed.

(** So does [main_cli_optimized.py], which skips the tiles listed before. *)
Lemma run_passes_optimized batches : ∀ shown s,
  run_passes MainCliOptimized (accumulate shown batches) s
  = foldl record_optimized s (mjoin batches).
Proof.
  induction batches as [|batch rest IH]; intros shown s; [done|].
  change (run_passes MainCliOptimized (accumulate (shown ++ batch) rest)
            (foldl record_optimized s (drop (length shown) (shown ++ batch)))
          = foldl record_optimized s (batch ++ mjoin rest)).
  by rewrite drop_app_length, foldl_app, IH.
Qed.

Lemma record_same_identified so sp el :
  linked_or_none el → same_identified so sp →
  same_identified (record_original so el) (record_optimized sp el).
Proof.
  intros Hlinked [Hprod Hseen]. destruct el as [p|]; simpl; [|done].
  specialize (Hlinked p eq_refl).
  destruct (url p) as [u|] eqn:Hu.
  - assert (truthy (Some u) = true) as ->.
    { unfold truthy. apply negb_true_iff, String.eqb_neq. congruence. }
    simpl. destruct (existsb _ _) eqn:He.
    + apply existsb_url in He.
      rewrite bool_decide_eq_false_2; [done|].
      intros Hno. by apply Hno, Hseen.
    + rewrite bool_decide_eq_true_2.
      2:{ intros Hin. apply Hseen in Hin.
          apply existsb_url in Hin. congruence. }
      split; simpl.
      * rewrite filter_app, filter_cons_True by (by rewrite Hu).
        by rewrite Hprod.
      * intros v. rewrite elem_of_union, elem_of_singleton, fmap_app,
          elem_of_app, Hseen. simpl. rewrite list_elem_of_singleton, Hu.
        split; intros [?|?]; simplify_eq; auto.
  - destruct (existsb _ _); [done|]. split; simpl.
    + rewrite filter_app, filter_cons_False by (by rewrite Hu; intros []).
      simpl. by rewrite app_nil_r.
    + intros v. rewrite Hseen, fmap_app, elem_of_app. simpl.
      rewrite list_elem_of_singleton, Hu. split; [auto|].
      by intros [?|?].
Qed.

Lemma foldl_same_identified l : ∀ so sp,
  Forall linked_or_none l → same_identified so sp →
  same_identified (foldl record_original so l) (foldl record_optimized sp l).
Proof.
  induction l as [|el l IH]; intros so sp Hall Hsame; simpl; [done|].
  apply Forall_cons in Hall as [Hel Hall].
  by apply IH, record_same_identified.
Qed.

(** C10, as stated, fails: when the next page replaces the tiles (one
    tile, then two others), [main_cli.py] goes through both new tiles while
    [main_cli_optimized.py] starts at index 1 and misses the first. *)
Lemma replaced_page_extractors_differ :
  url <$> filter (λ p, url p ≠ None)
    (products (extract_all_products page_replaced MainCli 51 20
                 initial_state).1)
  = [Some "https://www.carrefour.fr/p/lait-a";
     Some "https://www.carrefour.fr/p/lait-b";
     Some "https://www.carrefour.fr/p/lait-c"]
  ∧ url <$> products (extract_all_products page_replaced MainCliOptimized
                        51 20 initial_state).1
    = [Some "https://www.carrefour.fr/p/lait-a";
       Some "https://www.carrefour.fr/p/lait-c"].
Proof. by vm_compute. Qed.

(** After a scroll that brought a tile, [main_cli_optimized.py] starts its
    pass at the count read after the scroll, so the tile is skipped;
    [main_cli.py] collects it. *)
Example scrolled_page_extractors_differ :
  url <$> products (extract_all_products page_scrolled MainCli 51 20
                      initial_state).1
  = [Some "https://www.carrefour.fr/p/lait-a";
     Some "https://www.carrefour.fr/p/lait-b"]
  ∧ url <$> products (extract_all_products page_scrolled MainCliOptimized
                        51 20 initial_state).1
    = [Some "https://www.carrefour.fr/p/lait-a"].
Proof. by vm_compute. Qed.

(** C10, amended. Over snapshots that only append tiles, each pass
    starting at the length of the snapshot before it, the two extractors
    collect the same records with a ['url'], in the same order. *)
Theorem extractors_agree_on_appended_snapshots (batches : list (list Element)) :
  Forall (Forall linked_or_none) batches →
  filter (λ p, url p ≠ None)
    (products (run_passes MainCli (accumulate [] batches) initial_state))
  = products (run_passes MainCliOptimized (accumulate [] batches)
                initial_state).
Proof.
  intros Hlinked.
  rewrite run_passes_original by constructor. rewrite run_passes_optimized.
  symmetry. apply foldl_same_identified.
  - by apply Forall_join.
  - split; [done|]. intros u. simpl. rewrite elem_of_nil. set_solver.
Qed.

Lemma extractors_agree_on_appended_snapshots_witness :
  filter (λ p, url p ≠ None)
    (products (run_passes MainCli
                 (accumulate []
                    [[tile "lait-a"; tile_without_link "Lot"; tile "lait-a"];
                     [tile "lait-b"; Raise; tile_without_link "Promo"]])
                 initial_state))
  = products (run_passes MainCliOptimized
                (accumulate []
                   [[tile "lait-a"; tile_without_link "Lot"; tile "lait-a"];
                    [tile "lait-b"; Raise; tile_without_link "Promo"]])
                initial_state).
Proof.
  apply (extractors_agree_on_appended_snapshots
           [[tile "lait-a"; tile_without_link "Lot"; tile "lait-a"];
            [tile "lait-b"; Raise; tile_without_link "Promo"]]).
  repeat constructor; intros p Hp; try discriminate;
    injection Hp as <-; discriminate.
Defined.

(** Two appended snapshots, and what both extractors collect from a
    longer sequence. *)
Example appended_snapshots_collected :
  accumulate [] [[tile "lait-a"]; [tile "lait-b"]]
  = [(0%nat, [tile "lait-a"]); (1%nat, [tile "lait-a"; tile "lait-b"])]
  ∧ url <$> products
      (run_passes MainCliOptimized
         (accumulate []
            [[tile "lait-a"; tile_without_link "Lot"; tile "lait-a"];
             [tile "lait-b"; Raise; tile_without_link "Promo"]])
         initial_state)
    = [Some "https://www.carrefour.fr/p/lait-a";
       Some "https://www.carrefour.fr/p/lait-b"].
Proof. by vm_compute. Qed.

(** ** The polling on a simulated surface *)

(** On [page_cascade] a poll for more than the one tile shown reads the
    clock and the count fifty times, 300 ms apart, and gives up; a poll for
    more than zero tiles returns at once. *)
Example wait_for_increase_on_page_cascade :
  (wait_for_increase page_cascade 51 1 15000 300 initial_state).2 = Ok false
  ∧ length (log (wait_for_increase page_cascade 51 1 15000 300
                   initial_state).1) = 152%nat
  ∧ wait_for_increase page_cascade 51 0 15000 300 initial_state
    = (mkState [Count; Now; Now] [] ∅, Ok true)
  ∧ (wait_for_increase page_cascade 50 1 15000 300 initial_state).2
    = OutOfFuel.
Proof. by vm_compute. Qed.


(** ** Absorbed errors on a simulated surface *)

(** On [page_actions_raise] the run ends normally after one attempt: the
    tile whose record cannot be built is skipped, and each strategy gives
    way when its first call raises. *)
Example run_on_page_actions_raise :
  (run_original page_actions_raise 51 20 "https://www.carrefour.fr/s?q=lait"
     initial_state).2 = Ok 1
  ∧ url <$> products
      (run_original page_actions_raise 51 20
         "https://www.carrefour.fr/s?q=lait" initial_state).1
    = [Some "https://www.carrefour.fr/p/lait-a"]
  ∧ reverse (log (run_original page_actions_raise 51 20
                    "https://www.carrefour.fr/s?q=lait" initial_state).1)
    = [Launch; NewContext; NewPage; Goto "https://www.carrefour.fr/s?q=lait";
       ClickCookie; QuerySelectorAll; Count;
       QuerySelector load_more_button; QuerySelector next_link;
       ScrollBottom; Close].
Proof. by vm_compute. Qed.

(** ** Records without a product link, in [main_cli.py] *)

(** C4. In [main_cli.py] a record whose ['url'] is [None] is not always
    discarded: after a pass over tiles of which one has no product link,
    the collected records hold a record without ['url'] (the first such
    record is appended, nothing collected before it having an equal
    ['url']).  On a grid of one such tile the pass and the whole traversal
    of [main_cli.py] keep it, and the pass of [main_cli_optimized.py]
    discards it. *)
Theorem original_keeps_unlinked_record :
  (∀ start_index els s p,
     Ret p ∈ els → url p = None →
     None ∈ url <$> products (pass_effect MainCli start_index els s))
  ∧ url <$> products
      (extract_page_products page_unlinked MainCli 0 initial_state).1 = [None]
  ∧ url <$> products
      (extract_all_products page_unlinked MainCli 51 20 initial_state).1
    = [None]
  ∧ products
      (extract_page_products page_unlinked MainCliOptimized 0 initial_state).1
    = [].
Proof.
  split; [|by vm_compute].
  intros start_index els s p Hin Hnone. simpl.
  pose proof (foldl_record_original_recorded els s) as Hall.
  apply (proj1 (Forall_forall _ _) Hall) in Hin. simpl in Hin.
  by rewrite Hnone in Hin.
Qed.

(** ** Invariants of a run *)

Lemma keeps_ret {A} I (a : A) : keeps I (ret a).
Proof. by intros s. Qed.

Lemma keeps_out_of_fuel {A} I : keeps I (@out_of_fuel A).
Proof. by intros s. Qed.

Lemma keeps_perform {A} I c (answer : History → res A) :
  keeps I (perform c answer).
Proof. intros s Hs. unfold perform. by destruct (answer (log s)). Qed.

Lemma keeps_bind {A B} I (m : M A) (f : A → M B) :
  keeps I m → (∀ a, keeps I (f a)) → keeps I (bind m f).
Proof.
  intros Hm Hf s Hs. unfold bind. specialize (Hm s Hs).
  destruct (m s) as [s1 [a| |]]; simpl in *; [by apply Hf|done..].
Qed.

Lemma keeps_try_except {A} I (m h : M A) :
  keeps I m → keeps I h → keeps I (try_except m h).
Proof.
  intros Hm Hh s Hs. unfold try_except. specialize (Hm s Hs).
  destruct (m s) as [s1 [a| |]]; simpl in *; [done|by apply Hh|done].
Qed.

Lemma keeps_modify I (f : State → State) :
  (∀ s, I (products s) (seen_urls s) →
        I (products (f s)) (seen_urls (f s))) →
  keeps I (modify f).
Proof. intros Hf s Hs. by apply Hf. Qed.

(** Goes through a program of the monad with the lemmas above and with
    what the context says of its parts. *)
Ltac keeps_auto :=
  repeat first
    [ match goal with H : context [keeps] |- _ => apply H end
    | apply keeps_ret | apply keeps_out_of_fuel | apply keeps_perform
    | apply keeps_try_except
    | apply keeps_bind; [|intros ?]
    | match goal with |- keeps _ (if ?b then _ else _) => destruct b end ].

Section KeptByTheTraversal.

Variables (pg : Page) (src : source_file) (fuel : nat).
Variable I : list product → gset string → Prop.
Hypothesis I_pass : pass_stable src I.

Lemma keeps_products_count : keeps I (products_count pg).
Proof. unfold products_count, locator_count. keeps_auto. Qed.

Lemma keeps_wait_loop n start prev tmo poll :
  keeps I (wait_loop pg n start prev tmo poll).
Proof.
  induction n as [|n IH]; simpl; [keeps_auto|].
  unfold time_time, wait_for_timeout.
  pose proof keeps_products_count. keeps_auto.
Qed.

Lemma keeps_wait_for_increase n prev tmo poll :
  keeps I (wait_for_increase pg n prev tmo poll).
Proof.
  unfold wait_for_increase, time_time.
  pose proof keeps_wait_loop. keeps_auto.
Qed.

Lemma keeps_click_first sels : keeps I (click_first pg sels).
Proof.
  induction sels as [|sel sels IH]; simpl; [keeps_auto|].
  unfold query_selector, is_enabled, is_visible, click.
  keeps_auto.
Qed.

Lemma keeps_extract_page_products start_index :
  keeps I (extract_page_products pg src start_index).
Proof.
  assert (∀ l s, I (products s) (seen_urls s) →
            match src with
            | MainCli =>
                I (products (foldl record_original s l))
                  (seen_urls (foldl record_original s l))
            | MainCliOptimized =>
                I (products (foldl record_optimized s l))
                  (seen_urls (foldl record_optimized s l))
            end) as Hfold.
  { induction l as [|el l IH]; intros s Hs; simpl; [by destruct src|].
    pose proof (I_pass s el Hs) as Hstep.
    destruct src; by apply (IH _ Hstep). }
  unfold extract_page_products. destruct src;
    unfold extract_page_products_original, extract_page_products_optimized,
      query_selector_all;
    (apply keeps_bind; [apply keeps_perform|]); intros els;
    apply keeps_modify; intros s Hs; apply (Hfold _ s Hs).
Qed.

Lemma keeps_scroll_loop steps increased prev :
  keeps I (scroll_loop pg steps increased prev).
Proof.
  revert increased prev.
  induction steps as [|steps IH]; intros increased prev; simpl;
    [keeps_auto|].
  unfold scroll_to_bottom, wait_for_timeout.
  pose proof keeps_products_count. keeps_auto.
Qed.

Lemma keeps_attempt : keeps I (attempt pg src fuel).
Proof.
  pose proof keeps_products_count. pose proof keeps_wait_for_increase.
  pose proof keeps_click_first. pose proof keeps_extract_page_products.
  pose proof keeps_scroll_loop.
  unfold attempt, strategy_load_more, strategy_next_page, strategy_scroll,
    wait_for_load_state.
  keeps_auto.
Qed.

Lemma keeps_attempt_loop n attempts max_attempts :
  keeps I (attempt_loop pg src fuel n attempts max_attempts).
Proof.
  revert attempts. induction n as [|n IH]; intros attempts; simpl;
    [keeps_auto|].
  pose proof keeps_attempt. destruct (attempts <? max_attempts);
    keeps_auto.
Qed.

Lemma keeps_extract_all_products max_attempts :
  keeps I (extract_all_products pg src fuel max_attempts).
Proof.
  pose proof keeps_extract_page_products. pose proof keeps_attempt_loop.
  unfold extract_all_products. keeps_auto.
Qed.

End KeptByTheTraversal.

Lemma optimized_fields_stable : pass_stable MainCliOptimized optimized_fields.
Proof.
  intros s el (Hnd & Hall & Hseen). destruct el as [p|]; simpl; [|done].
  destruct (url p) as [u|] eqn:Hu; [|done].
  destruct (truthy (Some u)) eqn:Ht; simpl; [|done].
  case_bool_decide as Hnew; simpl; [|done].
  split_and!.
  - rewrite fmap_app. apply NoDup_app. split_and!; [done| |].
    + intros k Hk [->|[]%elem_of_nil]%elem_of_cons.
      rewrite Hu in Hk. by apply Hnew, Hseen.
    + simpl. apply NoDup_singleton.
  - apply Forall_app. split; [done|]. constructor; [by rewrite Hu|constructor].
  - intros v. rewrite elem_of_union, elem_of_singleton, fmap_app, elem_of_app,
      Hseen. simpl. rewrite list_elem_of_singleton, Hu.
    split; intros [?|?]; simplify_eq; auto.
Qed.

Lemma original_distinct_stable :
  pass_stable MainCli (λ ps _, NoDup (url <$> ps)).
Proof.
  intros s el Hnd. destruct el as [p|]; simpl; [|done].
  destruct (existsb _ _) eqn:He; simpl; [done|].
  rewrite fmap_app. apply NoDup_app. split_and!; [done| |apply NoDup_singleton].
  intros k Hk [->|[]%elem_of_nil]%elem_of_cons.
  apply existsb_url in Hk. congruence.
Qed.

Lemma growth_stable src (ps0 : list product) :
  pass_stable src (λ ps _, ps0 `prefix_of` ps).
Proof.
  intros s el Hpre. destruct src, el as [p|]; simpl; try done.
  - destruct (existsb _ _); simpl; [done|]. by apply prefix_app_r.
  - destruct (url p); [|done]. destruct (_ && _); simpl; [|done].
    by apply prefix_app_r.
Qed.

Lemma keeps_run_original pg fuel max_attempts location I :
  pass_stable MainCli I → keeps I (run_original pg fuel max_attempts location).
Proof.
  intros HI. pose proof (keeps_extract_all_products pg MainCli fuel I HI).
  unfold run_original, open_page, handle_cookies, wait_for_timeout.
  keeps_auto.
Qed.

Lemma keeps_run_optimized pg fuel max_attempts location single I :
  pass_stable MainCliOptimized I →
  keeps I (run_optimized pg fuel max_attempts location single).
Proof.
  intros HI.
  pose proof (keeps_extract_all_products pg MainCliOptimized fuel I HI).
  pose proof (keeps_extract_page_products pg MainCliOptimized I HI) as Hpass.
  change (∀ start_index,
            keeps I (extract_page_products_optimized pg start_index)) in Hpass.
  unfold run_optimized, open_page, handle_cookies, wait_for_timeout.
  destruct single; keeps_auto.
Qed.

(** X1. Whatever the page answers and however the run ends, the run of
    [main_cli_optimized.py] leaves records with pairwise distinct, non-empty
    URLs, and [seen_urls] holds exactly those URLs; the traversal keeps
    this true from any state where it holds. *)
Theorem optimized_run_fields pg fuel max_attempts location single_page_only :
  optimized_fields
    (products (run_optimized pg fuel max_attempts location single_page_only
                 initial_state).1)
    (seen_urls (run_optimized pg fuel max_attempts location single_page_only
                  initial_state).1)
  ∧ ∀ s, optimized_fields (products s) (seen_urls s) →
      optimized_fields
        (products (extract_all_products pg MainCliOptimized fuel
                     max_attempts s).1)
        (seen_urls (extract_all_products pg MainCliOptimized fuel
                      max_attempts s).1).
Proof.
  split.
  - apply (keeps_run_optimized _ _ _ _ _ _ optimized_fields_stable).
    split_and!; [constructor|constructor|]. intros u. simpl.
    rewrite elem_of_nil. set_solver.
  - apply keeps_extract_all_products, optimized_fields_stable.
Qed.

(** X2. Whatever the page answers and however the run ends, no two records
    collected by [main_cli.py] have the same ['url'] (so at most one has
    none). *)
Theorem original_run_distinct pg fuel max_attempts location :
  NoDup (url <$> products
           (run_original pg fuel max_attempts location initial_state).1)
  ∧ ∀ s, NoDup (url <$> products s) →
      NoDup (url <$> products
               (extract_all_products pg MainCli fuel max_attempts s).1).
Proof.
  split.
  - apply (keeps_run_original _ _ _ _ _ original_distinct_stable).
    constructor.
  - apply (keeps_extract_all_products _ _ _ _ original_distinct_stable).
Qed.

(** X3. A traversal only appends: the records collected before it are
    still there afterwards, in the same order and at the head of the list,
    in both source files and even when the run ends in an exception. *)
Theorem traversal_only_appends pg src fuel max_attempts s :
  products s `prefix_of`
    products (extract_all_products pg src fuel max_attempts s).1
  ∧ ∀ start_index,
      products s `prefix_of`
        products (extract_page_products pg src start_index s).1.
Proof.
  split; [|intros start_index].
  - by apply (keeps_extract_all_products _ _ _ _ (growth_stable src (products s))).
  - by apply (keeps_extract_page_products _ _ _ (growth_stable src (products s))).
Qed.

(** ** Passes over tiles already gone through *)

Lemma record_optimized_seen s el :
  seen_urls s ⊆ seen_urls (record_optimized s el).
Proof.
  destruct el as [p|]; simpl; [|done]. destruct (url p); [|done].
  destruct (_ && _); simpl; set_solver.
Qed.

Lemma foldl_record_optimized_seen l : ∀ s,
  seen_urls s ⊆ seen_urls (foldl record_optimized s l).
Proof.
  induction l as [|el l IH]; intros s; simpl; [done|].
  etrans; [apply (record_optimized_seen s el)|apply IH].
Qed.

(** After a pass of [main_cli_optimized.py] the usable URL of every tile it
    went through is in [seen_urls]. *)
Lemma foldl_record_optimized_marks l : ∀ s p u,
  Ret p ∈ l → url p = Some u → truthy (Some u) = true →
  u ∈ seen_urls (foldl record_optimized s l).
Proof.
  induction l as [|el l IH]; intros s p u Hin Hu Ht.
  - by apply elem_of_nil in Hin.
  - simpl. apply elem_of_cons in Hin as [<-|Hin]; [|by eapply IH].
    apply foldl_record_optimized_seen. simpl. rewrite Hu, Ht. simpl.
    case_bool_decide as Hnew; simpl; [set_solver|].
    by destruct (decide (u ∈ seen_urls s)).
Qed.

Lemma foldl_record_optimized_again l : ∀ s,
  (∀ p u, Ret p ∈ l → url p = Some u → truthy (Some u) = true →
          u ∈ seen_urls s) →
  foldl record_optimized s l = s.
Proof.
  induction l as [|el l IH]; intros s Hseen; simpl; [done|].
  assert (record_optimized s el = s) as ->.
  { destruct el as [p|]; simpl; [|done]. destruct (url p) as [u|] eqn:Hu; [|done].
    destruct (truthy (Some u)) eqn:Ht; simpl; [|done].
    rewrite bool_decide_eq_false_2; [done|]. intros Hnew.
    apply Hnew, (Hseen p u); [left|done..]. }
  apply IH. intros p u Hin. apply Hseen. by right.
Qed.

(** X4. Once a pass has gone through all the tiles of a listing, another
    pass over the same listing, from any start index, changes nothing: in
    both source files overlapping passes never duplicate a record. *)
Theorem pass_again_changes_nothing src start_index els s :
  pass_effect src start_index els (pass_effect src 0 els s)
  = pass_effect src 0 els s.
Proof.
  destruct src; simpl.
  - apply foldl_record_original_again, foldl_record_original_recorded.
  - rewrite drop_0. apply foldl_record_optimized_again.
    intros p u Hin Hu Ht. apply foldl_record_optimized_marks with p; [|done..].
    rewrite <- (take_drop start_index els). apply elem_of_app. by right.
Qed.

(** ** The controls of a click strategy *)




(** On [page_cascade] the load-more button is the first selector and is
    clicked at once. *)
Example click_first_on_page_cascade :
  click_first page_cascade load_more_selectors initial_state
  = (mkState [Click load_more_button; IsVisible load_more_button;
              IsEnabled load_more_button; QuerySelector load_more_button]
       [] ∅, Ok true)
  ∧ (click_first page_scrolled next_selectors initial_state).2 = Ok false
  ∧ reverse (log (click_first page_scrolled next_selectors initial_state).1)
    = QuerySelector <$> next_selectors.
Proof. by vm_compute. Qed.

(** ** The cost of one wait *)




(** X7. With a timeout of zero or less, on a clock that does not run
    backwards, [wait_for_increase] reads the clock twice, makes no poll and
    returns [False], even when the count is already above [prev_count]. *)
Theorem wait_for_increase_no_timeout pg fuel prev_count timeout_ms poll_ms s :
  clock_ok pg → timeout_ms ≤ 0 → (1 ≤ fuel)%nat →
  wait_for_increase pg fuel prev_count timeout_ms poll_ms s
  = (logged Now (logged Now s), Ok false).
Proof.
  intros Hc Htmo Hfuel. rewrite wait_for_increase_eq.
  destruct fuel as [|fuel]; [lia|]. rewrite wait_loop_S.
  destruct (in_time _ _ _) eqn:Hin; [|done].
  apply in_time_true in Hin. simpl in Hin.
  pose proof (clock_mono pg Hc (log s) Now) as Hm.
  assert (inject_Z timeout_ms <= 0)%Q as Hle
    by (change 0%Q with (inject_Z 0); by rewrite <- Zle_Qle).
  exfalso. lra.
Qed.

Lemma wait_for_increase_no_timeout_witness :
  wait_for_increase page_cascade 51 0 0 300 initial_state
  = (logged Now (logged Now initial_state), Ok false).
Proof.
  apply (wait_for_increase_no_timeout page_cascade 51 0 0 300 initial_state);
    [apply surface_clock_ok|lia|lia].
Defined.

(** ** The attempt budget *)

(** X8. The overrides never leave the scraper without a budget or headed
    without a display: [max_load_attempts] is the given value when it is
    positive and stays as it was otherwise (20 for a new scraper), and the
    browser is headed only when [--no-headless] was given on a host that is
    not a Linux without [DISPLAY]. *)
Theorem apply_overrides_safe no_headless max_attempts h c :
  (max_load_attempts (apply_overrides no_headless max_attempts h c)
   = match max_attempts with
     | Some n => if 0 <? n then n else max_load_attempts c
     | None => max_load_attempts c
     end)
  ∧ (1 ≤ max_load_attempts c →
     1 ≤ max_load_attempts (apply_overrides no_headless max_attempts h c))
  ∧ (headless (apply_overrides no_headless max_attempts h c) = false →
     (no_headless = true ∨ headless c = false)
     ∧ (on_linux h = false ∨ has_display h = true))
  ∧ timeout (apply_overrides no_headless max_attempts h c) = timeout c
  ∧ user_agent (apply_overrides no_headless max_attempts h c) = user_agent c.
Proof.
  unfold apply_overrides.
  destruct c as [t hl ua m]; simpl.
  destruct no_headless, max_attempts as [n|], hl, (on_linux h),
    (has_display h); simpl;
    try (destruct (0 <? n) eqn:Hn; simpl;
         [apply Z.ltb_lt in Hn|apply Z.ltb_ge in Hn]);
    split_and!; try done; try lia; intros; try done; try lia;
    split; auto.
Qed.

(** X9. When [extract_all_products] returns, it has run no attempt if its
    budget is zero or less (its only call is then the listing of the first
    pass), and otherwise at least one attempt and at most the budget; a run
    started by [main] has a budget of at least one. *)
Theorem attempts_within_budget pg src fuel max_attempts s k :
  (extract_all_products pg src fuel max_attempts s).2 = Ok k →
  (max_attempts ≤ 0 →
   k = 0
   ∧ log (extract_all_products pg src fuel max_attempts s).1
     = QuerySelectorAll :: log s)
  ∧ (1 ≤ max_attempts → 1 ≤ k ≤ max_attempts).
Proof.
  intros Hk. split.
  - intros Hmax. revert Hk. unfold extract_all_products, bind.
    rewrite extract_page_products_eq.
    destruct (pg_query_selector_all pg (log s)) as [els|]; [|done].
    simpl. assert ((0 <? max_attempts) = false) as -> by (apply Z.ltb_ge; lia).
    simpl. intros [= <-]. split; [done|]. by rewrite pass_effect_log.
  - intros Hmax.
    destruct (extract_all_products pg src fuel max_attempts s)
      as [s' r] eqn:Hrun. simpl in Hk. subst r.
    apply extract_all_products_spec in Hrun as (_ & _ & Hpost).
    destruct (Hpost k eq_refl) as (Hle & Hbreak & _).
    destruct (decide (k < max_attempts)) as [Hlt|Hge].
    + destruct (Hbreak Hlt). lia.
    + lia.
Qed.

Lemma attempts_within_budget_witness :
  (20 ≤ 0 →
   2 = 0
   ∧ log (extract_all_products page_cascade MainCli 51 20 initial_state).1
     = QuerySelectorAll :: log initial_state)
  ∧ (1 ≤ 20 → 1 ≤ 2 ≤ 20).
Proof.
  apply (attempts_within_budget page_cascade MainCli 51 20 initial_state 2).
  by vm_compute.
Defined.

(** ** [build_page_url], applied again *)

Lemma dict_set_set d k v v' : dict_set (dict_set d k v) k v' = dict_set d k v'.
Proof.
  induction d as [|[k0 v0] d IH]; simpl.
  - by rewrite String.eqb_refl.
  - destruct (String.eqb k0 k) eqn:E; simpl; rewrite E; [done|by rewrite IH].
Qed.


(** X10. [build_page_url] on a location it returned only replaces the page
    number: the shard URL of page [m] is the same whether it is built from
    the location or from another of its shard URLs; and two page numbers never
    give the same shard URL. *)
Theorem build_page_url_again base_url n m :
  build_page_url (build_page_url base_url n) m = build_page_url base_url m
  ∧ (build_page_url base_url n = build_page_url base_url m → n = m).
Proof.
  split.
  - unfold build_page_url at 1. simpl.
    rewrite dict_of_pairs_NoDup
      by apply dict_set_NoDup, dict_of_pairs_NoDup_keys.
    by rewrite dict_set_set.
  - intros Heq.
    assert (dict_get (query (build_page_url base_url n)) "page"
            = dict_get (query (build_page_url base_url m)) "page") as Hq
      by (by rewrite Heq).
    simpl in Hq. rewrite !dict_get_set_eq in Hq.
    injection Hq as Hq. by apply (inj pretty) in Hq.
Qed.


(** X11. The shard plan of [main] has [max(2, max_pages)] locations, pairwise
    distinct, each the location with its page number set; it is the plan of
    two pages whenever [max_pages] is 2 or less. *)
Theorem shard_urls_distinct location max_pages :
  NoDup (shard_urls location max_pages)
  ∧ length (shard_urls location max_pages) = Z.to_nat (Z.max 2 max_pages)
  ∧ (∀ u, u ∈ shard_urls location max_pages
          ↔ ∃ n, 1 ≤ n ≤ Z.max 2 max_pages ∧ u = build_page_url location n)
  ∧ (max_pages ≤ 2 →
     shard_urls location max_pages
     = [build_page_url location 1; build_page_url location 2]).
Proof.
  unfold shard_urls, shard_pages.
  replace (Z.max 2 max_pages + 1 - 1) with (Z.max 2 max_pages) by lia.
  split_and!.
  - apply NoDup_fmap_2_strong; [|apply NoDup_seqZ].
    intros n m _ _ Heq.
    assert (dict_get (query (build_page_url location n)) "page"
            = dict_get (query (build_page_url location m)) "page") as Hq
      by (by rewrite Heq).
    simpl in Hq. rewrite !dict_get_set_eq in Hq.
    injection Hq as Hq. by apply (inj pretty) in Hq.
  - by rewrite length_map, length_seqZ.
  - intros u. rewrite list_elem_of_In, in_map_iff. split.
    + intros (n & <- & Hn). exists n. split; [|done].
      apply list_elem_of_In, elem_of_seqZ in Hn. lia.
    + intros (n & Hn & ->). exists n. split; [done|].
      apply list_elem_of_In, elem_of_seqZ. lia.
  - intros Hle. by replace (Z.max 2 max_pages) with 2 by lia.
Qed.

(** ** The modes of [main] *)

Lemma returns_ret {A} (a : A) : returns (ret a).
Proof. by intros s. Qed.

Lemma returns_perform {A} c (answer : History → res A) :
  returns (perform c answer).
Proof. intros s. unfold perform. by destruct (answer (log s)). Qed.

Lemma returns_modify (f : State → State) : returns (modify f).
Proof. by intros s. Qed.

Lemma returns_bind {A B} (m : M A) (f : A → M B) :
  returns m → (∀ a, returns (f a)) → returns (bind m f).
Proof.
  intros Hm Hf s. unfold bind. specialize (Hm s).
  destruct (m s) as [s1 [a| |]]; simpl in *; [apply Hf|done..].
Qed.

Lemma returns_try_except {A} (m h : M A) :
  returns m → returns h → returns (try_except m h).
Proof.
  intros Hm Hh s. unfold try_except. specialize (Hm s).
  destruct (m s) as [s1 [a| |]]; simpl in *; [done|apply Hh|done].
Qed.



Lemma gather_returned run_task completed : ∀ results,
  Forall (λ t, run_task t ≠ OutOfFuel) completed →
  gather run_task completed results
  = Some (results ++ returned run_task completed).
Proof.
  induction completed as [|t completed IH]; intros results Hall; simpl.
  - by rewrite app_nil_r.
  - apply Forall_cons in Hall as [Ht Hall]. unfold returned. simpl.
    destruct (run_task t) as [res| |]; [| |done].
    + rewrite IH by done. by rewrite <- app_assoc.
    + by rewrite IH.
Qed.

Lemma gather_out_of_fuel run_task completed : ∀ results,
  Exists (λ t, run_task t = OutOfFuel) completed →
  gather run_task completed results = None.
Proof.
  induction completed as [|t completed IH]; intros results Hex; simpl.
  - by apply Exists_nil in Hex.
  - apply Exists_cons in Hex as [Ht|Hex]; [by rewrite Ht|].
    destruct (run_task t); [by apply IH..|done].
Qed.

Lemma gather_cases run_task completed :
  (Forall (λ t, run_task t ≠ OutOfFuel) completed
   ∧ gather run_task completed [] = Some (returned run_task completed))
  ∨ (Exists (λ t, run_task t = OutOfFuel) completed
     ∧ gather run_task completed [] = None).
Proof.
  assert (Forall (λ t, run_task t ≠ OutOfFuel) completed
          ∨ Exists (λ t, run_task t = OutOfFuel) completed) as [Hall|Hex].
  { induction completed as [|t completed [IH|IH]].
    - left. constructor.
    - destruct (run_task t) eqn:Ht.
      + left. constructor; [by rewrite Ht|done].
      + left. constructor; [by rewrite Ht|done].
      + right. by left.
    - right. by right. }
  - left. split; [done|]. by rewrite gather_returned.
  - right. split; [done|]. by apply gather_out_of_fuel.
Qed.

Lemma keys_length ps :
  NoDup (url <$> ps) → Forall (λ p, truthy (url p) = true) ps →
  size (keys ps) = length ps.
Proof.
  unfold keys. induction ps as [|p ps IH]; intros Hnd Ht; [done|].
  rewrite fmap_cons in Hnd.
  apply NoDup_cons in Hnd as [Hp Hnd]. apply Forall_cons in Ht as [Hu Ht].
  cbn [omap list_omap length]. destruct (url p) as [u|] eqn:Hup; [|done].
  cbn [list_to_set]. rewrite size_union.
  - rewrite size_singleton, IH by done. done.
  - apply disjoint_singleton_l. rewrite elem_of_list_to_set, list_elem_of_omap.
    intros (q & Hq & Hqu). apply Hp, list_elem_of_fmap. exists q.
    by rewrite Hqu.
Qed.

Lemma merge_shards_length results :
  length (merge_shards results) = size (keys (merge_shards results)).
Proof.
  rewrite keys_length; [done|..]; rewrite merge_shards_first_seen.
  - apply first_seen_NoDup.
  - apply Forall_forall. intros p Hp. by apply first_seen_elem in Hp as (_ & ? & _).
Qed.

Lemma keys_merge_shards_perm rs rs' :
  rs ≡ₚ rs' → keys (merge_shards rs) = keys (merge_shards rs').
Proof.
  intros Hperm. apply set_eq. intros u. rewrite !keys_merge_shards.
  unfold arrived. by setoid_rewrite Hperm.
Qed.

Lemma returned_perm run_task completed completed' :
  completed ≡ₚ completed' →
  returned run_task completed ≡ₚ returned run_task completed'.
Proof. intros Hperm. unfold returned. by rewrite Hperm. Qed.

Lemma out_of_fuel_perm (run_task : task → outcome shard_result)
    (completed completed' : list task) :
  completed ≡ₚ completed' →
  Exists (λ t, run_task t = OutOfFuel) completed →
  Exists (λ t, run_task t = OutOfFuel) completed'.
Proof. intros Hperm. by rewrite Hperm. Qed.

Lemma count_total_perm (rs rs' : list shard_result) :
  rs ≡ₚ rs' →
  foldr (λ r n, (r_count r + n)%nat) 0%nat rs
  = foldr (λ r n, (r_count r + n)%nat) 0%nat rs'.
Proof.
  induction 1 as [|r rs rs' _ IH|r1 r2 rs|rs rs1 rs2 _ IH1 _ IH2]; simpl;
    [done|by rewrite IH|lia|congruence].
Qed.

(** X12. The completion order of the tasks changes neither the URLs of the
    merged records nor their number (sharded mode), nor the two totals of
    the multi-URL mode, as long as what the page of a task answers does not
    depend on the other tasks. *)
Theorem main_order_independent web h fuel out_file completed completed' :
  completed ≡ₚ completed' →
  match main_sharded web h fuel out_file completed,
        main_sharded web h fuel out_file completed' with
  | Some ps, Some ps' => keys ps = keys ps' ∧ length ps = length ps'
  | None, None => True
  | _, _ => False
  end
  ∧ main_multi web h fuel out_file completed
    = main_multi web h fuel out_file completed'.
Proof.
  intros Hperm. unfold main_sharded, main_multi.
  set (run_task := process_url_task web h fuel out_file).
  destruct (gather_cases run_task completed) as [[Hall ->]|[Hex ->]].
  - assert (Forall (λ t, run_task t ≠ OutOfFuel) completed') as Hall'
      by (by rewrite <- Hperm).
    rewrite gather_returned by done. simpl.
    pose proof (returned_perm run_task _ _ Hperm) as Hret.
    split_and!.
    + by apply keys_merge_shards_perm.
    + rewrite !merge_shards_length. f_equal. by apply keys_merge_shards_perm.
    + f_equal. f_equal; [by rewrite Hret|by apply count_total_perm].
  - by rewrite (gather_out_of_fuel run_task completed')
      by (by apply (out_of_fuel_perm _ completed)).
Qed.

Lemma main_order_independent_witness :
  match main_sharded web_of_shards this_host 0 at_location
          [shard_task "shard-1"; shard_task "shard-2"; shard_task "shard-3"],
        main_sharded web_of_shards this_host 0 at_location
          [shard_task "shard-3"; shard_task "shard-1"; shard_task "shard-2"]
  with
  | Some ps, Some ps' => keys ps = keys ps' ∧ length ps = length ps'
  | None, None => True
  | _, _ => False
  end
  ∧ main_multi web_of_shards this_host 0 at_location
      [shard_task "shard-1"; shard_task "shard-2"; shard_task "shard-3"]
    = main_multi web_of_shards this_host 0 at_location
        [shard_task "shard-3"; shard_task "shard-1"; shard_task "shard-2"].
Proof.
  apply (main_order_independent web_of_shards this_host 0 at_location
           [shard_task "shard-1"; shard_task "shard-2"; shard_task "shard-3"]
           [shard_task "shard-3"; shard_task "shard-1"; shard_task "shard-2"]).
  symmetry.
  apply (Permutation_cons_append
           [shard_task "shard-1"; shard_task "shard-2"] (shard_task "shard-3")).
Defined.

(** The two orders above give one merged record, from two shards. *)
Example main_sharded_three_shards :
  url <$> default [] (main_sharded web_of_shards this_host 0 at_location
            [shard_task "shard-3"; shard_task "shard-1"; shard_task "shard-2"])
  = [Some "https://www.carrefour.fr/p/lait-a"]
  ∧ main_multi web_of_shards this_host 0 at_location
      [shard_task "shard-3"; shard_task "shard-1"; shard_task "shard-2"]
    = Some (2%nat, 2%nat).
Proof. by vm_compute. Qed.








(** ** The attempts of a run started by [main] *)

Lemma run_original_attempts pg fuel max_attempts location s k :
  (run_original pg fuel max_attempts location s).2 = Ok k →
  ∃ s1, (extract_all_products pg MainCli fuel max_attempts s1).2 = Ok k.
Proof.
  unfold run_original, bind.
  destruct (open_page pg location s) as [s1 [[]| |]]; [|done..].
  destruct (handle_cookies pg s1) as [s2 [[]| |]]; [|done..].
  destruct (extract_all_products pg MainCli fuel max_attempts s2)
    as [s3 [k'| |]] eqn:Hrun; [|done..].
  destruct (perform Close (pg_close pg) s3) as [s4 [[]| |]]; [|done..].
  simpl. intros [= <-]. exists s2. by rewrite Hrun.
Qed.

Lemma run_optimized_attempts pg fuel max_attempts location s k :
  (run_optimized pg fuel max_attempts location false s).2 = Ok k →
  ∃ s1, (extract_all_products pg MainCliOptimized fuel max_attempts s1).2 = Ok k.
Proof.
  unfold run_optimized, bind.
  destruct (open_page pg location s) as [s1 [[]| |]]; [|done..].
  destruct (handle_cookies pg s1) as [s2 [[]| |]]; [|done..].
  destruct (try_except _ _ s2) as [s3 [[]| |]]; [|done..].
  destruct (extract_all_products pg MainCliOptimized fuel max_attempts s3)
    as [s4 [k'| |]] eqn:Hrun; [|done..].
  destruct (perform Close (pg_close pg) s4) as [s5 [[]| |]]; [|done..].
  simpl. intros [= <-]. exists s3. by rewrite Hrun.
Qed.

(** X15. A run that [main] starts on one URL and that returns has made at
    least one attempt, and at most [--max-attempts] of them when that is
    positive, at most 20 otherwise. *)
Theorem main_attempts pg h fuel no_headless max_attempts location k :
  (main_original pg h fuel no_headless max_attempts location).2 = Ok k
  ∨ (main_single pg h fuel no_headless max_attempts location).2 = Ok k →
  1 ≤ k ≤ match max_attempts with
          | Some n => if 0 <? n then n else 20
          | None => 20
          end.
Proof.
  unfold main_original, main_single.
  set (budget := max_load_attempts _).
  assert (budget = match max_attempts with
                   | Some n => if 0 <? n then n else 20
                   | None => 20
                   end ∧ 1 ≤ budget) as [Hb Hpos].
  { unfold budget, apply_overrides.
    destruct no_headless, max_attempts as [n|], (on_linux h), (has_display h);
      simpl; try (destruct (0 <? n) eqn:Hn; simpl;
                  [apply Z.ltb_lt in Hn|]); split; done || lia. }
  rewrite <- Hb.
  assert (∀ src s1,
            (extract_all_products pg src fuel budget s1).2 = Ok k →
            1 ≤ k ≤ budget) as Hk.
  { intros src s1 Hrun.
    destruct (extract_all_products pg src fuel budget s1) as [s' r] eqn:Heq.
    simpl in Hrun. subst r.
    apply extract_all_products_spec in Heq as (_ & _ & Hpost).
    destruct (Hpost k eq_refl) as (Hle & Hbreak & _).
    destruct (decide (k < budget)) as [Hlt|Hge]; [destruct (Hbreak Hlt)|]; lia. }
  intros [(s1 & Hrun)%run_original_attempts|(s1 & Hrun)%run_optimized_attempts];
    by apply Hk in Hrun.
Qed.

Lemma main_attempts_witness :
  1 ≤ 2 ≤ match Some 5 with
          | Some n => if 0 <? n then n else 20
          | None => 20
          end.
Proof.
  apply (main_attempts page_cascade this_host 51 true (Some 5)
           "https://www.carrefour.fr/s?q=lait" 2).
  left. by vm_compute.
Defined.

(** ** The field extractors *)

Lemma str_app_cons c s t : String c s +:+ t = String c (s +:+ t).
Proof. done. Qed.

Lemma str_app_nil_l s : "" +:+ s = s.
Proof. done. Qed.

Lemma str_app_nil_r s : s +:+ "" = s.
Proof. induction s as [|c s IH]; [done|]. by rewrite str_app_cons, IH. Qed.

Lemma str_app_assoc s1 s2 s3 : (s1 +:+ s2) +:+ s3 = s1 +:+ s2 +:+ s3.
Proof.
  induction s1 as [|c s1 IH]; [done|]. by rewrite !str_app_cons, IH.
Qed.

Lemma nonempty_app s1 s2 :
  nonempty (s1 +:+ s2) = nonempty s1 || nonempty s2.
Proof. by destruct s1, s2. Qed.

Lemma str_all_app P s1 s2 :
  str_all P (s1 +:+ s2) = str_all P s1 && str_all P s2.
Proof.
  induction s1 as [|c s1 IH]; [done|].
  rewrite str_app_cons. simpl. by rewrite IH, andb_assoc.
Qed.

(** A string that is not empty ends with a character. *)
Lemma str_last s :
  nonempty s = true → ∃ s' c, s = s' +:+ String c "".
Proof.
  induction s as [|c s IH]; [done|]. intros _. destruct s as [|c' s].
  - by exists "", c.
  - destruct IH as (s' & c0 & Heq); [done|].
    exists (String c s'), c0. by rewrite str_app_cons, <- Heq.
Qed.

Section ExtractorFacts.

Variables (isspace isdigit : ascii → bool).
Variable urljoin : string → string → string.

Lemma str_rstrip_all s :
  str_all isspace s = true → str_rstrip isspace s = "".
Proof.
  induction s as [|c s IH]; simpl; [done|].
  intros [Hc Hs]%andb_true_iff. by rewrite IH, Hc.
Qed.

Lemma str_rstrip_again s :
  str_rstrip isspace (str_rstrip isspace s) = str_rstrip isspace s.
Proof.
  induction s as [|c s IH]; simpl; [done|].
  destruct (str_rstrip isspace s) as [|c' r] eqn:Hr.
  - destruct (isspace c) eqn:Hc; simpl; [done|by rewrite Hc].
  - change (str_rstrip isspace (String c (String c' r))) with
      (match str_rstrip isspace (String c' r) with
       | EmptyString => if isspace c then EmptyString else String c EmptyString
       | r0 => String c r0
       end).
    by rewrite IH.
Qed.

Lemma str_rstrip_snoc s c :
  isspace c = false →
  str_rstrip isspace (s +:+ String c "") = s +:+ String c "".
Proof.
  intros Hc. induction s as [|c0 s IH]; [simpl; by rewrite Hc|].
  rewrite str_app_cons. simpl. rewrite IH. by destruct s.
Qed.

Lemma split_from_words s : ∀ cur,
  str_all (λ c, negb (isspace c)) cur = true →
  Forall (word isspace) (split_from isspace cur s).
Proof.
  induction s as [|c s IH]; intros cur Hcur; simpl.
  - destruct (nonempty cur) eqn:Hne; [|constructor].
    by repeat constructor.
  - destruct (isspace c) eqn:Hc.
    + destruct (nonempty cur) eqn:Hne; [|by apply IH].
      constructor; [done|by apply IH].
    + apply IH. rewrite str_all_app, Hcur. simpl. by rewrite Hc.
Qed.

Lemma split_from_cur s : ∀ cur,
  nonempty cur = true → split_from isspace cur s ≠ [].
Proof.
  induction s as [|c s IH]; intros cur Hcur; simpl.
  - by rewrite Hcur.
  - destruct (isspace c); [by rewrite Hcur|].
    apply IH. by rewrite nonempty_app, Hcur.
Qed.

Lemma split_from_nil s :
  str_split isspace s = [] → str_all isspace s = true.
Proof.
  unfold str_split. induction s as [|c s IH]; simpl; [done|].
  destruct (isspace c) eqn:Hc; simpl; [done|].
  intros Hnil. by apply split_from_cur in Hnil.
Qed.

Lemma split_from_word w : ∀ cur s,
  str_all (λ c, negb (isspace c)) w = true →
  split_from isspace cur (w +:+ s) = split_from isspace (cur +:+ w) s.
Proof.
  induction w as [|c w IH]; intros cur s.
  - by rewrite str_app_nil_r.
  - rewrite str_app_cons. simpl.
    intros [Hc Hw]%andb_true_iff. apply negb_true_iff in Hc.
    rewrite Hc. rewrite IH by done. by rewrite str_app_assoc.
Qed.

Lemma split_from_space cur c s :
  isspace c = true → nonempty cur = true →
  split_from isspace cur (String c s) = cur :: split_from isspace "" s.
Proof. intros Hc Hcur. simpl. by rewrite Hc, Hcur. Qed.

Lemma str_split_concat ws :
  isspace " " = true → Forall (word isspace) ws →
  str_split isspace (String.concat " " ws) = ws.
Proof.
  intros Hsp. unfold str_split.
  induction ws as [|w ws IH]; intros Hws; [done|].
  apply Forall_cons in Hws as [[Hne Hw] Hws].
  destruct ws as [|w2 ws].
  - simpl. rewrite <- (str_app_nil_r w) at 1.
    rewrite split_from_word, str_app_nil_l by done. simpl. by rewrite Hne.
  - change (String.concat " " (w :: w2 :: ws))
      with (w +:+ String " " (String.concat " " (w2 :: ws))).
    rewrite split_from_word, str_app_nil_l by done.
    rewrite split_from_space by done. by rewrite IH.
Qed.

(** The last character of a word is not whitespace. *)
Lemma word_last w :
  word isspace w → ∃ s c, w = s +:+ String c "" ∧ isspace c = false.
Proof.
  intros [Hne Hw]. destruct (str_last w Hne) as (s & c & ->).
  exists s, c. split; [done|].
  rewrite str_all_app in Hw. apply andb_true_iff in Hw as [_ Hc].
  simpl in Hc. rewrite andb_true_r in Hc. by apply negb_true_iff.
Qed.

Lemma concat_words_last ws :
  ws ≠ [] → Forall (word isspace) ws →
  ∃ s c, String.concat " " ws = s +:+ String c "" ∧ isspace c = false.
Proof.
  induction ws as [|w ws IH]; [done|]. intros _ Hws.
  apply Forall_cons in Hws as [Hw Hws]. destruct ws as [|w2 ws].
  - by apply word_last.
  - destruct IH as (s & c & Heq & Hc); [done..|].
    exists (w +:+ " " +:+ s), c. split; [|done].
    change (String.concat " " (w :: w2 :: ws))
      with (w +:+ " " +:+ String.concat " " (w2 :: ws)).
    by rewrite Heq, !str_app_assoc.
Qed.

Lemma concat_words_first ws :
  ws ≠ [] → Forall (word isspace) ws →
  ∃ c s, String.concat " " ws = String c s ∧ isspace c = false.
Proof.
  destruct ws as [|w ws]; [done|]. intros _ Hws.
  apply Forall_cons in Hws as [[Hne Hw] _].
  destruct w as [|c w]; [done|]. simpl in Hw.
  apply andb_true_iff in Hw as [Hc _]. apply negb_true_iff in Hc.
  destruct ws; [by exists c, w|].
  by exists c, (w +:+ " " +:+ String.concat " " (s :: ws)).
Qed.

Lemma str_strip_concat ws :
  ws ≠ [] → Forall (word isspace) ws →
  str_strip isspace (String.concat " " ws) = String.concat " " ws
  ∧ nonempty (String.concat " " ws) = true.
Proof.
  intros Hne Hws. unfold str_strip.
  destruct (concat_words_first ws Hne Hws) as (c & s & Heq & Hc).
  destruct (concat_words_last ws Hne Hws) as (s' & c' & Heq' & Hc').
  split; [|by rewrite Heq].
  assert (str_lstrip isspace (String.concat " " ws) = String.concat " " ws)
    as -> by (rewrite Heq; simpl; by rewrite Hc).
  rewrite Heq'. by apply str_rstrip_snoc.
Qed.

(** What [safe_extract] makes of a text that is not blank. *)
Lemma normal_text text :
  nonempty (str_strip isspace text) = true →
  str_split isspace (str_strip isspace text) ≠ []
  ∧ Forall (word isspace) (str_split isspace (str_strip isspace text)).
Proof.
  intros Hne. split; [|by apply split_from_words].
  intros Hnil%split_from_nil. apply str_rstrip_all in Hnil.
  unfold str_strip in *. rewrite str_rstrip_again in Hnil.
  by rewrite Hnil in Hne.
Qed.

Lemma safe_extract_text_words parent selector attr t :
  truthy attr = false →
  safe_extract isspace parent selector attr = Some t →
  ∃ ws, ws ≠ [] ∧ Forall (word isspace) ws ∧ t = String.concat " " ws.
Proof.
  unfold safe_extract, catch, res_bind. intros ->.
  destruct (el_query_selector parent selector) as [[element|]|]; [|done..].
  destruct (el_inner_text element) as [text|]; [|done].
  destruct (nonempty (str_strip isspace text)) eqn:Hne; [|done].
  intros [= <-]. destruct (normal_text text Hne) as [? ?]. eauto.
Qed.

End ExtractorFacts.

(** X16. A text that [safe_extract] returns is never empty: it is one or
    more words (non-empty, without whitespace) joined by single spaces, so
    stripping it changes nothing, and where the space counts as whitespace
    splitting it gives the words back. *)
Theorem safe_extract_text isspace parent selector attr t :
  truthy attr = false →
  safe_extract isspace parent selector attr = Some t →
  ∃ ws, ws ≠ [] ∧ Forall (word isspace) ws ∧ t = String.concat " " ws
    ∧ nonempty t = true
    ∧ str_strip isspace t = t
    ∧ (isspace " "%char = true → str_split isspace t = ws).
Proof.
  intros Hattr (ws & Hne & Hws & ->)%safe_extract_text_words; [|done].
  exists ws. destruct (str_strip_concat isspace ws Hne Hws) as [Hs Hn].
  split_and!; try done. intros Hsp. by apply str_split_concat.
Qed.

Lemma safe_extract_text_witness :
  ∃ ws, ws ≠ [] ∧ Forall (word Ascii.is_space) ws
    ∧ "Lait demi ecreme 1L" = String.concat " " ws
    ∧ nonempty "Lait demi ecreme 1L" = true
    ∧ str_strip Ascii.is_space "Lait demi ecreme 1L" = "Lait demi ecreme 1L"
    ∧ (Ascii.is_space " "%char = true →
       str_split Ascii.is_space "Lait demi ecreme 1L" = ws).
Proof.
  apply (safe_extract_text Ascii.is_space milk_tile
           ".product-list-card-plp-grid__title" None); reflexivity.
Defined.

(** X17. A price that [extract_price] returns is never empty; it is the
    text of the main amount, or the three parts of the price as
    [safe_extract] returned them, with one space before the currency: the
    [strip] of the currency changes nothing. *)
Theorem extract_price_parts isspace product_element p :
  extract_price isspace product_element = Some p →
  nonempty p = true
  ∧ (safe_extract isspace product_element ".product-price__amount--main" None
     = Some p
     ∨ ∃ w d c,
         safe_extract isspace product_element
           ".product-price__content:nth-child(1)" None = Some w
         ∧ safe_extract isspace product_element
             ".product-price__content:nth-child(2)" None = Some d
         ∧ safe_extract isspace product_element
             ".product-price__content:nth-child(3)" None = Some c
         ∧ p = w +:+ d +:+ " " +:+ c).
Proof.
  unfold extract_price.
  assert (∀ sel q, safe_extract isspace product_element sel None = Some q →
                   nonempty q = true ∧ str_strip isspace q = q) as Htext.
  { intros sel q (ws & Hne & Hws & ->)%safe_extract_text_words; [|done].
    destruct (str_strip_concat isspace ws Hne Hws). done. }
  destruct (safe_extract isspace product_element
              ".product-price__content:nth-child(1)" None) as [w|] eqn:Hw;
    [|intros Hp; split; [by apply Htext in Hp as [? _]|by left]].
  destruct (safe_extract isspace product_element
              ".product-price__content:nth-child(2)" None) as [d|] eqn:Hd;
    [|intros Hp; split; [by apply Htext in Hp as [? _]|by left]].
  destruct (safe_extract isspace product_element
              ".product-price__content:nth-child(3)" None) as [c|] eqn:Hc;
    [|intros Hp; split; [by apply Htext in Hp as [? _]|by left]].
  destruct (Htext _ _ Hw) as [Hwn _]. destruct (Htext _ _ Hd) as [Hdn _].
  destruct (Htext _ _ Hc) as [Hcn Hcs]. rewrite Hwn, Hdn, Hcn, Hcs. simpl.
  intros [= <-]. split; [by rewrite nonempty_app, Hwn|].
  right. by exists w, d, c.
Qed.

Lemma extract_price_parts_witness :
  nonempty "1,05 EUR" = true
  ∧ (safe_extract Ascii.is_space milk_tile ".product-price__amount--main" None
     = Some "1,05 EUR"
     ∨ ∃ w d c,
         safe_extract Ascii.is_space milk_tile
           ".product-price__content:nth-child(1)" None = Some w
         ∧ safe_extract Ascii.is_space milk_tile
             ".product-price__content:nth-child(2)" None = Some d
         ∧ safe_extract Ascii.is_space milk_tile
             ".product-price__content:nth-child(3)" None = Some c
         ∧ "1,05 EUR" = w +:+ d +:+ " " +:+ c).
Proof.
  apply (extract_price_parts Ascii.is_space milk_tile). reflexivity.
Defined.

Lemma split_on_from_nonempty sep s : ∀ cur, split_on_from sep cur s ≠ [].
Proof.
  induction s as [|c s IH]; intros cur; simpl; [done|].
  destruct (Ascii.eqb c sep); [done|apply IH].
Qed.

Lemma last_cons {A} (x : A) l d : l ≠ [] → List.last (x :: l) d = List.last l d.
Proof. by destruct l. Qed.

(** The last piece of [s.split(sep)] has no separator in it, and is [s] or
    what follows a separator at the end of [s]. *)
Lemma split_on_from_last sep s : ∀ cur e,
  List.last (split_on_from sep cur s) "" = e →
  (e = cur +:+ s ∧ str_all (λ c, negb (Ascii.eqb c sep)) s = true)
  ∨ (∃ pre, s = pre +:+ String sep e)
    ∧ str_all (λ c, negb (Ascii.eqb c sep)) e = true.
Proof.
  induction s as [|c s IH]; intros cur e; simpl.
  - intros <-. left. by rewrite str_app_nil_r.
  - destruct (Ascii.eqb c sep) eqn:Hc.
    + apply Ascii.eqb_eq in Hc as ->.
      rewrite last_cons by apply split_on_from_nonempty.
      intros [[-> Hs]|[(pre & ->) He]]%IH; right.
      * split; [by exists ""|done].
      * split; [by exists (String sep pre)|done].
    + intros [[-> Hs]|[(pre & ->) He]]%IH.
      * left. rewrite str_app_assoc. simpl. by rewrite Hs.
      * right. split; [by exists (String c pre)|done].
Qed.

Lemma ean_of_url isdigit url e :
  (if nonempty url
   then if str_isdigit isdigit (List.last (str_split_on "-" url) "")
           && (String.length (List.last (str_split_on "-" url) "") =? 13)%nat
        then Ret (Some (List.last (str_split_on "-" url) ""))
        else Ret None
   else Ret None) = Ret (Some e) →
  String.length e = 13%nat
  ∧ str_all isdigit e = true
  ∧ (url = e ∨ ∃ pre, url = pre +:+ "-" +:+ e)
  ∧ str_all (λ c, negb (Ascii.eqb c "-")) e = true.
Proof.
  destruct (nonempty url); [|done].
  destruct (str_isdigit isdigit _) eqn:Hd; [|done].
  destruct (_ =? _)%nat eqn:Hl; [|done]. simpl. intros [= He].
  rewrite He in Hd, Hl. apply Nat.eqb_eq in Hl.
  unfold str_isdigit in Hd. apply andb_true_iff in Hd as [_ Hd].
  split; [done|]. split; [done|].
  apply split_on_from_last in He as [[-> Hn]|[(pre & ->) Hn]].
  - split; [by left|done].
  - split; [right; by exists pre|done].
Qed.

(** X18. An EAN that [extract_ean] returns has 13 characters, all digits; it
    is the [id] of the [article], or else the part of the product URL after
    its last dash (the whole URL if it has none). *)
Theorem extract_ean_digits isdigit urljoin product_element e :
  extract_ean isdigit urljoin product_element = Some e →
  String.length e = 13%nat
  ∧ str_all isdigit e = true
  ∧ ((∃ article,
        el_query_selector product_element "article" = Ret (Some article)
        ∧ el_get_attribute article "id" = Ret (Some e))
     ∨ (∃ url, extract_product_url urljoin product_element = Some url
          ∧ (url = e ∨ ∃ pre, url = pre +:+ "-" +:+ e)
          ∧ str_all (λ c, negb (Ascii.eqb c "-")) e = true)).
Proof.
  unfold extract_ean, catch, res_bind.
  assert (match extract_product_url urljoin product_element with
          | Some url =>
              if nonempty url
              then if str_isdigit isdigit (List.last (str_split_on "-" url) "")
                      && (String.length (List.last (str_split_on "-" url) "")
                          =? 13)%nat
                   then Ret (Some (List.last (str_split_on "-" url) ""))
                   else Ret None
              else Ret None
          | None => Ret None
          end = Ret (Some e) →
          String.length e = 13%nat ∧ str_all isdigit e = true
          ∧ ∃ url, extract_product_url urljoin product_element = Some url
              ∧ (url = e ∨ ∃ pre, url = pre +:+ "-" +:+ e)
              ∧ str_all (λ c, negb (Ascii.eqb c "-")) e = true) as Hurl.
  { destruct (extract_product_url urljoin product_element) as [url|]; [|done].
    intros (? & ? & ? & ?)%ean_of_url. split_and!; [done..|]. by exists url. }
  destruct (el_query_selector product_element "article")
    as [[article|]|] eqn:Harticle; [| |done].
  - destruct (el_get_attribute article "id") as [[article_id|]|] eqn:Hid;
      [| |done].
    + destruct (nonempty article_id && str_isdigit isdigit article_id
                && (String.length article_id =? 13)%nat) eqn:Htest.
      * intros [= <-].
        apply andb_true_iff in Htest as [[_ Hd]%andb_true_iff Hl].
        apply Nat.eqb_eq in Hl. unfold str_isdigit in Hd.
        apply andb_true_iff in Hd as [_ Hd].
        split_and!; [done..|]. left. by exists article.
      * intros Hrun. case_match; [|done]. simplify_eq.
        destruct (Hurl eq_refl) as (? & ? & ?). split_and!; [done..|]. by right.
    + intros Hrun. case_match; [|done]. simplify_eq.
      destruct (Hurl eq_refl) as (? & ? & ?). split_and!; [done..|]. by right.
  - intros Hrun. case_match; [|done]. simplify_eq.
    destruct (Hurl eq_refl) as (? & ? & ?). split_and!; [done..|]. by right.
Qed.

Lemma extract_ean_digits_witness :
  String.length "3560070123456" = 13%nat
  ∧ str_all ascii_isdigit "3560070123456" = true
  ∧ ((∃ article,
        el_query_selector milk_tile "article" = Ret (Some article)
        ∧ el_get_attribute article "id" = Ret (Some "3560070123456"))
     ∨ (∃ url, extract_product_url String.append milk_tile = Some url
          ∧ (url = "3560070123456"
             ∨ ∃ pre, url = pre +:+ "-" +:+ "3560070123456")
          ∧ str_all (λ c, negb (Ascii.eqb c "-")) "3560070123456" = true)).
Proof.
  apply (extract_ean_digits ascii_isdigit String.append milk_tile).
  reflexivity.
Defined.

(** ** The calls of a run *)

Lemma emits_ret {A} P (a : A) : emits P (ret a).
Proof. intros s. by exists []. Qed.

Lemma emits_out_of_fuel {A} P : emits P (@out_of_fuel A).
Proof. intros s. by exists []. Qed.

Lemma emits_perform {A} (P : Call → Prop) c (answer : History → res A) :
  P c → emits P (perform c answer).
Proof.
  intros Hc s. exists [c]. unfold perform.
  destruct (answer (log s)); simpl; split; by repeat constructor.
Qed.

Lemma emits_bind {A B} P (m : M A) (f : A → M B) :
  emits P m → (∀ a, emits P (f a)) → emits P (bind m f).
Proof.
  intros Hm Hf s. unfold bind. destruct (Hm s) as (n1 & Hl1 & Hn1).
  destruct (m s) as [s1 [a| |]]; simpl in *;
    [|by exists n1|by exists n1].
  destruct (Hf a s1) as (n2 & Hl2 & Hn2). exists (n2 ++ n1).
  rewrite Hl2, Hl1, app_assoc. split; [done|]. by apply Forall_app.
Qed.

Lemma emits_try_except {A} P (m h : M A) :
  emits P m → emits P h → emits P (try_except m h).
Proof.
  intros Hm Hh s. unfold try_except. destruct (Hm s) as (n1 & Hl1 & Hn1).
  destruct (m s) as [s1 [a| |]]; simpl in *; [by exists n1| |by exists n1].
  destruct (Hh s1) as (n2 & Hl2 & Hn2). exists (n2 ++ n1).
  rewrite Hl2, Hl1, app_assoc. split; [done|]. by apply Forall_app.
Qed.

Ltac emits_auto :=
  repeat first
    [ match goal with H : context [emits] |- _ => apply H end
    | apply emits_ret | apply emits_out_of_fuel
    | apply emits_perform; exact I
    | apply emits_try_except
    | apply emits_bind; [|intros ?]
    | match goal with |- emits _ (if ?b then _ else _) => destruct b end ].

Section CallsOfTheTraversal.

Variables (pg : Page) (src : source_file) (fuel : nat).

Lemma emits_products_count : emits traversal_call (products_count pg).
Proof. unfold products_count, locator_count. emits_auto. Qed.

Lemma emits_wait_loop n start prev tmo poll :
  emits traversal_call (wait_loop pg n start prev tmo poll).
Proof.
  induction n as [|n IH]; simpl; [emits_auto|].
  unfold time_time, wait_for_timeout.
  pose proof emits_products_count. emits_auto.
Qed.

Lemma emits_wait_for_increase n prev tmo poll :
  emits traversal_call (wait_for_increase pg n prev tmo poll).
Proof.
  unfold wait_for_increase, time_time.
  pose proof emits_wait_loop. emits_auto.
Qed.

Lemma emits_click_first sels : emits traversal_call (click_first pg sels).
Proof.
  induction sels as [|sel sels IH]; simpl; [emits_auto|].
  unfold query_selector, is_enabled, is_visible, click.
  emits_auto.
Qed.

Lemma emits_extract_page_products start_index :
  emits traversal_call (extract_page_products pg src start_index).
Proof.
  intros s. rewrite extract_page_products_eq. exists [QuerySelectorAll].
  destruct (pg_query_selector_all pg (log s)); simpl;
    rewrite ?pass_effect_log; split; by repeat constructor.
Qed.

Lemma emits_scroll_loop steps increased prev :
  emits traversal_call (scroll_loop pg steps increased prev).
Proof.
  revert increased prev.
  induction steps as [|steps IH]; intros increased prev; simpl;
    [emits_auto|].
  unfold scroll_to_bottom, wait_for_timeout.
  pose proof emits_products_count. emits_auto.
Qed.

Lemma emits_attempt : emits traversal_call (attempt pg src fuel).
Proof.
  pose proof emits_products_count. pose proof emits_wait_for_increase.
  pose proof emits_click_first. pose proof emits_extract_page_products.
  pose proof emits_scroll_loop.
  unfold attempt, strategy_load_more, strategy_next_page, strategy_scroll,
    wait_for_load_state.
  emits_auto.
Qed.

Lemma emits_attempt_loop n attempts max_attempts :
  emits traversal_call (attempt_loop pg src fuel n attempts max_attempts).
Proof.
  revert attempts. induction n as [|n IH]; intros attempts; simpl;
    [emits_auto|].
  pose proof emits_attempt. destruct (attempts <? max_attempts);
    emits_auto.
Qed.

End CallsOfTheTraversal.

(** X19. The traversal never navigates and never closes the browser: each
    of its calls counts the tiles, reads the clock, waits, looks for a
    control, clicks it, scrolls or lists the tiles; the oldest of them is the
    listing of the first pass. *)
Theorem traversal_calls pg src fuel max_attempts s :
  ∃ new,
    log (extract_all_products pg src fuel max_attempts s).1
    = new ++ QuerySelectorAll :: log s
    ∧ Forall traversal_call new
    ∧ (∀ location, Goto location ∉ new) ∧ (Close ∉ new) ∧ (Launch ∉ new).
Proof.
  pose proof (emits_attempt_loop pg src fuel (S (Z.to_nat max_attempts)) 0
                max_attempts) as Hloop.
  unfold extract_all_products, bind. rewrite extract_page_products_eq.
  assert (∀ new, Forall traversal_call new →
            (∀ location, Goto location ∉ new) ∧ (Close ∉ new) ∧ (Launch ∉ new))
    as Hnot.
  { intros new Hnew. rewrite Forall_forall in Hnew.
    split_and!; [intros location|..]; intros Hin; by apply Hnew in Hin. }
  destruct (pg_query_selector_all pg (log s)) as [els|].
  - destruct (Hloop (pass_effect src 0 els (logged QuerySelectorAll s)))
      as (new & Hl & Hnew).
    exists new. split; [|split; [done|by apply Hnot]].
    destruct (attempt_loop _ _ _ _ _ _ _) as [s' [k| |]]; simpl in *;
      by rewrite Hl, pass_effect_log.
  - exists []. split; [done|]. split; [constructor|]. apply Hnot. constructor.
Qed.

Lemma handle_cookies_log pg s :
  (handle_cookies pg s).2 = Ok tt
  ∧ ∃ new, log (handle_cookies pg s).1 = new ++ ClickCookie :: log s
      ∧ (new = [] ∨ new = [WaitTimeout 1000]).
Proof.
  unfold handle_cookies, try_except, bind, wait_for_timeout, perform, ret.
  destruct (pg_click_cookie pg (log s)); simpl.
  - destruct (pg_wait_for_timeout pg _ 1000) as [[]|]; simpl;
      (split; [done|]); exists [WaitTimeout 1000]; auto.
  - split; [done|]. exists []. auto.
Qed.

(** How the traversal, or the single pass, can end. *)
Lemma traversal_end pg src fuel max_attempts s :
  ∃ new,
    log (extract_all_products pg src fuel max_attempts s).1
    = new ++ QuerySelectorAll :: log s
    ∧ (Close ∉ new)
    ∧ ((extract_all_products pg src fuel max_attempts s).2 = Exc →
       new = [] ∧ pg_query_selector_all pg (log s) = Raise).
Proof.
  pose proof (emits_attempt_loop pg src fuel (S (Z.to_nat max_attempts)) 0
                max_attempts) as Hloop.
  destruct (extract_all_products pg src fuel max_attempts s) as [s' r] eqn:Hrun.
  pose proof Hrun as (Hexc & _)%extract_all_products_spec.
  revert Hrun. unfold extract_all_products, bind.
  rewrite extract_page_products_eq.
  destruct (pg_query_selector_all pg (log s)) as [els|].
  - destruct (Hloop (pass_effect src 0 els (logged QuerySelectorAll s)))
      as (new & Hl & Hnew).
    intros Hrun. rewrite Hrun in Hl. simpl in *. exists new.
    rewrite Hl, pass_effect_log. split; [done|]. split.
    + intros Hin. rewrite Forall_forall in Hnew. by apply Hnew in Hin.
    + intros Hr. by apply Hexc in Hr.
  - intros [= <- <-]. exists []. split; [done|]. split; [|done].
    apply not_elem_of_nil.
Qed.

Lemma single_pass_end pg s :
  ∃ new,
    log ((extract_page_products_optimized pg 0 ;;; ret 0) s).1
    = new ++ QuerySelectorAll :: log s
    ∧ (Close ∉ new)
    ∧ (((extract_page_products_optimized pg 0 ;;; ret 0) s).2 = Exc →
       new = [] ∧ pg_query_selector_all pg (log s) = Raise).
Proof.
  unfold bind.
  change (extract_page_products_optimized pg 0)
    with (extract_page_products pg MainCliOptimized 0).
  rewrite extract_page_products_eq. exists [].
  destruct (pg_query_selector_all pg (log s)) as [els|]; cbn -[pass_effect];
    rewrite ?pass_effect_log; (split; [done|]);
    (split; [apply not_elem_of_nil|done]).
Qed.

Ltac not_logged :=
  let Hin := fresh "Hin" in
  intros Hin;
  repeat (apply elem_of_cons in Hin as [Hin|Hin]; [discriminate|]);
  by apply elem_of_nil in Hin.

Lemma run_shape pg location (mid : M Z) s :
  (∀ s0, ∃ new,
     log (mid s0).1 = new ++ ClickCookie :: log s0
     ∧ (Close ∉ new)
     ∧ ((mid s0).2 = Exc →
        ∃ h, log (mid s0).1 = QuerySelectorAll :: h
           ∧ pg_query_selector_all pg h = Raise)) →
  lifecycle pg location s
    ((open_page pg location ;;;
      attempts <- mid ;; perform Close (pg_close pg) ;;; ret attempts) s).
Proof.
  intros Hmid. unfold lifecycle, open_page, bind, perform, ret.
  destruct (pg_launch pg (log s)) as [[]|] eqn:H1; simpl;
    [|exists []; split_and!; [done|left; not_logged|done|];
      intros _; by exists Launch, (log s)].
  destruct (pg_new_context pg (Launch :: log s)) as [[]|] eqn:H2; simpl;
    [|exists [NewContext]; split_and!;
        [done|left; not_logged|done|];
      intros _; by exists NewContext, (Launch :: log s)].
  destruct (pg_new_page pg (NewContext :: Launch :: log s)) as [[]|] eqn:H3;
    simpl;
    [|exists [NewPage; NewContext]; split_and!;
        [done|left; not_logged|done|];
      intros _; by exists NewPage, (NewContext :: Launch :: log s)].
  destruct (pg_goto pg (NewPage :: NewContext :: Launch :: log s) location)
    as [[]|] eqn:H4; simpl;
    [|exists [Goto location; NewPage; NewContext]; split_and!;
        [done|left; not_logged|done|];
      intros _;
      by exists (Goto location), (NewPage :: NewContext :: Launch :: log s)].
  set (s4 := logged (Goto location)
               (logged NewPage (logged NewContext (logged Launch s)))).
  destruct (Hmid s4) as (new & Hl & Hnc & Hexc).
  assert (Close ∉ new ++ [ClickCookie; Goto location; NewPage; NewContext])
    as Hnc'.
  { rewrite elem_of_app. intros [?|Hin]; [done|]. revert Hin. not_logged. }
  destruct (mid s4) as [s5 [k| |]]; simpl in *.
  - exists (Close :: new ++ [ClickCookie; Goto location; NewPage; NewContext]).
    destruct (pg_close pg (log s5)) as [[]|] eqn:H5; simpl;
      (split; [by rewrite Hl, <- app_assoc|]);
      (split; [right; by eexists|]).
    + split; [intros k' _; by exists new|done].
    + split; [done|]. intros _. by exists Close, (log s5).
  - exists (new ++ [ClickCookie; Goto location; NewPage; NewContext]).
    split; [by rewrite Hl, <- app_assoc|]. split; [by left|].
    split; [done|]. intros _. destruct (Hexc eq_refl) as (h & Hh & Hraise).
    by exists QuerySelectorAll, h.
  - exists (new ++ [ClickCookie; Goto location; NewPage; NewContext]).
    split; [by rewrite Hl, <- app_assoc|]. split; [by left|]. done.
Qed.

Lemma run_original_eq pg fuel max_attempts location s :
  run_original pg fuel max_attempts location s
  = (open_page pg location ;;;
     attempts <- (handle_cookies pg ;;;
                  extract_all_products pg MainCli fuel max_attempts) ;;
     perform Close (pg_close pg) ;;; ret attempts) s.
Proof.
  unfold run_original, bind.
  destruct (open_page pg location s) as [s1 [[]| |]]; [|done..].
  destruct (handle_cookies pg s1) as [s2 [[]| |]]; [|done..].
  by destruct (extract_all_products pg MainCli fuel max_attempts s2)
    as [s3 [k| |]].
Qed.

Lemma run_optimized_eq pg fuel max_attempts location single s :
  run_optimized pg fuel max_attempts location single s
  = (open_page pg location ;;;
     attempts <- (handle_cookies pg ;;;
                  try_except
                    (perform WaitForSelector (pg_wait_for_selector pg))
                    (ret tt) ;;;
                  if single
                  then extract_page_products_optimized pg 0 ;;; ret 0
                  else extract_all_products pg MainCliOptimized fuel
                         max_attempts) ;;
     perform Close (pg_close pg) ;;; ret attempts) s.
Proof.
  unfold run_optimized, bind.
  destruct (open_page pg location s) as [s1 [[]| |]]; [|done..].
  destruct (handle_cookies pg s1) as [s2 [[]| |]]; [|done..].
  destruct (try_except _ _ s2) as [s3 [[]| |]]; [|done..].
  by destruct single.
Qed.

(** X20. The life of the browser in a run of either file: [Launch] is the
    oldest call of the run; [run] closes the browser at most once, with its
    newest call, and always when it returns; when [run] raises, the
    exception is that of its newest call, which launched the browser, opened
    the context or the page, navigated, listed the tiles of the first pass, or
    closed the browser: nothing else makes a run fail, and after any of the
    first five the browser is left unclosed. *)
Theorem run_lifecycle pg fuel max_attempts location s :
  lifecycle pg location s (run_original pg fuel max_attempts location s)
  ∧ ∀ single_page_only,
      lifecycle pg location s
        (run_optimized pg fuel max_attempts location single_page_only s).
Proof.
  split; [|intros single]; [rewrite run_original_eq|rewrite run_optimized_eq];
    apply run_shape; intros s0; unfold bind;
    destruct (handle_cookies_log pg s0) as (Hok & n0 & Hl0 & Hn0);
    destruct (handle_cookies pg s0) as [s1 r1]; simpl in Hok, Hl0; subst r1.
  - destruct (traversal_end pg MainCli fuel max_attempts s1)
      as (new & Hl & Hnc & Hexc).
    exists (new ++ QuerySelectorAll :: n0). rewrite Hl, Hl0.
    split; [by rewrite <- app_assoc|]. split.
    + rewrite elem_of_app. intros [?|Hin]; [done|].
      revert Hin. destruct Hn0 as [-> | ->]; not_logged.
    + intros Hr. destruct (Hexc Hr) as [-> Hraise].
      exists (log s1). split; [by rewrite Hl0|done].
  - unfold try_except, perform, ret.
    set (s2 := logged WaitForSelector s1).
    assert (∀ (m : M Z),
              (∃ new, log (m s2).1 = new ++ QuerySelectorAll :: log s2
                 ∧ (Close ∉ new)
                 ∧ ((m s2).2 = Exc →
                    new = [] ∧ pg_query_selector_all pg (log s2) = Raise)) →
              ∃ new, log (m s2).1 = new ++ ClickCookie :: log s0
                 ∧ (Close ∉ new)
                 ∧ ((m s2).2 = Exc →
                    ∃ h, log (m s2).1 = QuerySelectorAll :: h
                       ∧ pg_query_selector_all pg h = Raise)) as Hstep.
    { intros m (new & Hl & Hnc & Hexc).
      exists (new ++ QuerySelectorAll :: WaitForSelector :: n0).
      rewrite Hl. simpl. rewrite Hl0.
      split; [by rewrite <- app_assoc|]. split.
      - rewrite elem_of_app. intros [?|Hin]; [done|].
        revert Hin. destruct Hn0 as [-> | ->]; not_logged.
      - intros Hr. destruct (Hexc Hr) as [-> Hraise].
        exists (log s2). split; [simpl; by rewrite Hl0|done]. }
    destruct (pg_wait_for_selector pg (log s1)) as [[]|]; simpl;
      fold s2;
      (destruct single;
       [apply (Hstep (extract_page_products_optimized pg 0 ;;; ret 0)),
          single_pass_end
       |apply (Hstep (extract_all_products pg MainCliOptimized fuel
                        max_attempts)), traversal_end]).
Qed.

(** ** Every mode of [main] comes to an end *)

Ltac returns_auto :=
  repeat first
    [ match goal with H : context [returns] |- _ => apply H end
    | apply returns_ret | apply returns_perform | apply returns_modify
    | apply returns_try_except
    | apply returns_bind; [|intros ?]
    | match goal with |- returns (if ?b then _ else _) => destruct b end ].

Lemma extract_all_products_returns pg src fuel max_attempts :
  clock_ok pg → (51 ≤ fuel)%nat →
  returns (extract_all_products pg src fuel max_attempts).
Proof.
  intros Hc Hf s.
  destruct (extract_all_products pg src fuel max_attempts s) as [s' r] eqn:Hrun.
  apply extract_all_products_spec in Hrun as (_ & Hret & _). by apply Hret.
Qed.

Lemma run_original_returns pg fuel max_attempts location :
  clock_ok pg → (51 ≤ fuel)%nat →
  returns (run_original pg fuel max_attempts location).
Proof.
  intros Hc Hf.
  pose proof (extract_all_products_returns pg MainCli fuel max_attempts Hc Hf).
  unfold run_original, open_page, handle_cookies, wait_for_timeout.
  returns_auto.
Qed.

Lemma run_optimized_returns pg fuel max_attempts location single :
  clock_ok pg → (51 ≤ fuel)%nat →
  returns (run_optimized pg fuel max_attempts location single).
Proof.
  intros Hc Hf.
  pose proof (extract_all_products_returns pg MainCliOptimized fuel
                max_attempts Hc Hf).
  unfold run_optimized, open_page, handle_cookies, wait_for_timeout,
    extract_page_products_optimized, query_selector_all.
  returns_auto.
Qed.

Lemma process_url_task_returns web h fuel out_file t :
  clock_ok (web (t_url t)) → (51 ≤ fuel)%nat →
  process_url_task web h fuel out_file t ≠ OutOfFuel.
Proof.
  intros Hc Hf. unfold process_url_task.
  destruct (out_file t) as [path|]; [|done].
  pose proof (run_optimized_returns (web (t_url t)) fuel
    (max_load_attempts
       (apply_overrides (t_no_headless t) (t_max_attempts t) h default_config))
    (t_url t) (t_single_page_only t) Hc Hf initial_state) as Hret.
  destruct (run_optimized _ _ _ _ _ _) as [s [k| |]]; simpl in *; done.
Qed.

Lemma returned_length (run_task : task → outcome shard_result) completed :
  (length (returned run_task completed) ≤ length completed)%nat.
Proof.
  unfold returned, omap. induction completed as [|t completed IH]; [done|].
  simpl. destruct (run_task t); simpl; lia.
Qed.

(** X21. Every mode of [main] comes to an end: on pages whose clock does
    not run backwards and advances with the waits, no loop of a run goes on
    without bound (51 rounds of polling are never exceeded), whatever the
    pages answer; the gathering loops then keep the results of exactly the
    tasks that returned, and the multi-URL mode reports their number, at
    most the number of URLs, and the sum of their counts. *)
Theorem main_returns pg web h fuel out_file no_headless max_attempts location
    completed :
  clock_ok pg → (∀ l, clock_ok (web l)) → (51 ≤ fuel)%nat →
  (main_original pg h fuel no_headless max_attempts location).2 ≠ OutOfFuel
  ∧ (main_single pg h fuel no_headless max_attempts location).2 ≠ OutOfFuel
  ∧ main_sharded web h fuel out_file completed
    = Some (merge_shards
              (returned (process_url_task web h fuel out_file) completed))
  ∧ main_multi web h fuel out_file completed
    = Some (length (returned (process_url_task web h fuel out_file) completed),
            foldr (λ r n, (r_count r + n)%nat) 0%nat
              (returned (process_url_task web h fuel out_file) completed))
  ∧ (length (returned (process_url_task web h fuel out_file) completed)
     ≤ length completed)%nat.
Proof.
  intros Hc Hweb Hf.
  assert (gather (process_url_task web h fuel out_file) completed []
          = Some (returned (process_url_task web h fuel out_file) completed))
    as Hgather.
  { rewrite gather_returned; [done|]. apply Forall_forall. intros t _.
    by apply process_url_task_returns. }
  split_and!.
  - by apply run_original_returns.
  - by apply run_optimized_returns.
  - unfold main_sharded. by rewrite Hgather.
  - unfold main_multi. by rewrite Hgather.
  - apply returned_length.
Qed.

Lemma main_returns_witness :
  (main_original page_cascade this_host 51 false None
     "https://www.carrefour.fr/s?q=lait").2 ≠ OutOfFuel
  ∧ (main_single page_cascade this_host 51 false None
       "https://www.carrefour.fr/s?q=lait").2 ≠ OutOfFuel
  ∧ main_sharded (λ _, page_cascade) this_host 51 at_location
      [shard_task "shard-1"]
    = Some (merge_shards
              (returned
                 (process_url_task (λ _, page_cascade) this_host 51 at_location)
                 [shard_task "shard-1"]))
  ∧ main_multi (λ _, page_cascade) this_host 51 at_location
      [shard_task "shard-1"]
    = Some (length
              (returned
                 (process_url_task (λ _, page_cascade) this_host 51 at_location)
                 [shard_task "shard-1"]),
            foldr (λ r n, (r_count r + n)%nat) 0%nat
              (returned
                 (process_url_task (λ _, page_cascade) this_host 51 at_location)
                 [shard_task "shard-1"]))
  ∧ (length
       (returned
          (process_url_task (λ _, page_cascade) this_host 51 at_location)
          [shard_task "shard-1"])
     ≤ length [shard_task "shard-1"])%nat.
Proof.
  apply (main_returns page_cascade (λ _, page_cascade) this_host 51 at_location
           false None "https://www.carrefour.fr/s?q=lait"
           [shard_task "shard-1"]);
    [apply surface_clock_ok|intros _; apply surface_clock_ok|lia].
Defined.
